(** * fix_timelapse.py: recovery of Snapmaker U1 timelapse videos

    A shallow embedding of [src/fix_timelapse.py] and the properties of its
    box scanner, its length-prefixed-to-Annex-B reframer and its
    orchestration (temporary file, mux step, exception handling).

    Modelling conventions.
    - Bytes are [Byte.byte]; a Python [bytes] object is a [list byte].
    - Python integers are [Z].  File offsets are signed 64-bit integers:
      a relative seek whose offset does not fit raises [ValueError], one
      whose target is negative or beyond the largest position of the file
      system raises [OSError]; no file is longer than that position.
    - [recover_file] runs in a state-and-exception monad [M] over a
      [world]: the input file and its read cursor, the temporary file on
      disk, the write buffer of [f_out], and three ghost fields: two
      counters of the operations attempted, the log of the [f_out.write]
      calls that returned and the list of the operations that raised
      [OSError].
    - [f_out] is a buffered writer: a write that fits the buffer only
      fills it; otherwise the buffer is flushed to the file and data larger
      than the buffer are written through; closing [f_out] when the
      with-block is left flushes what is pending.
    - Every access to the device may raise [OSError]: [mkstemp],
      [os.close], both [open]s, every [read], [tell] and [seek] on [f_in],
      every flush and write-through of [f_out], and [os.remove].  Which
      ones do is decided by an oracle [fault : nat -> bool] indexed by the
      number of operations attempted so far.  A device write that does not
      fail writes all its bytes.  Closing [f_in], closing the descriptor
      under [f_out] and [os.path.exists] are taken to succeed;
      [KeyboardInterrupt] and [print] are not modelled.  [TEMP_DIR] is
      [None], as in the source.
    - The [while True] loops take fuel.  The extraction loop is given
      enough fuel by its caller never to run out (see
      [extract_nals_terminates]); the box-scanning loop carries the fuel of
      [recover_file], and [OutOfFuel] means "still looping". *)

From Stdlib Require Import Ascii String.
From Stdlib Require Import List ZArith Lia Bool.
From Stdlib Require Strings.Byte.
Import Stdlib.Strings.Byte.
Import ListNotations.
Local Open Scope Z_scope.


(* ================================================================== *)
(** ** Bytes and [struct] *)

Definition byte_val (b : byte) : Z := Z.of_N (Byte.to_N b).

(** Slices [l[:n]] and [l[n:]] for an integer [n]; a negative [n] counts
    as 0 here (the program never slices with one). *)
Fixpoint take {A} (n : Z) (l : list A) : list A :=
  match l with
  | [] => []
  | x :: l' => if n <=? 0 then [] else x :: take (n - 1) l'
  end.

Fixpoint drop {A} (n : Z) (l : list A) : list A :=
  match l with
  | [] => []
  | x :: l' => if n <=? 0 then l else drop (n - 1) l'
  end.

(** Big-endian unsigned value of a byte string: what [struct.unpack]
    computes for [">I"] (4 bytes) and [">Q"] (8 bytes). *)
Definition be_uint (bs : list byte) : Z :=
  fold_left (fun acc b => acc * 256 + byte_val b) bs 0.

Definition byte_of_Z (z : Z) : byte :=
  match Byte.of_N (Z.to_N (z mod 256)) with
  | Some b => b
  | None => x00
  end.

(** [struct.pack] for big-endian unsigned fields of [n] bytes; only used to
    build inputs. *)
Fixpoint pack_be (n : nat) (z : Z) : list byte :=
  match n with
  | O => []
  | S n' => pack_be n' (z / 256) ++ [byte_of_Z z]
  end.

Definition pack_I : Z -> list byte := pack_be 4.
Definition pack_Q : Z -> list byte := pack_be 8.

(** The exceptions of the program: [OSError] (with [IOError], its alias),
    [struct.error], and the [ValueError] of a seek offset that is not a
    file offset. *)
Inductive exn := OSError | StructError | ValueError.


Inductive result (A : Type) :=
| Ok (a : A)
| Raise (e : exn)
| OutOfFuel.
Arguments Ok {A} a.
Arguments Raise {A} e.
Arguments OutOfFuel {A}.

(** [struct.unpack(fmt, bs)[0]] for a single unsigned field of [n] bytes:
    [struct.error] unless the buffer has exactly [n] bytes. *)
Definition struct_unpack_uint (n : nat) (bs : list byte) : result Z :=
  if Nat.eqb (length bs) n then Ok (be_uint bs) else Raise StructError.

(** [struct.unpack(">I4s", header)] on an 8-byte header. *)
Definition struct_unpack_I4s (header : list byte) : Z * list byte :=
  (be_uint (firstn 4 header), skipn 4 header).

(** [bs.decode("ascii", errors="ignore")]: bytes above 0x7f are dropped. *)
Definition decode_ascii_ignore (bs : list byte) : string :=
  string_of_list_byte (filter (fun b => byte_val b <? 128) bs).

(* ================================================================== *)
(** ** Configuration constants *)

Definition SPS : list byte :=
  [x67; x64; x00; x28; xac; xd9; x40; x78; x02; x27; xe5; xc0; x5a; x81; x01; x02;
   xa0; x00; x00; x03; x00; x20; x00; x00; x06; x01; xe3; x06; x32; xc0].
Definition PPS : list byte := [x68; xea; xe3; xcb; x22; xc0].
Definition START_CODE : list byte := [x00; x00; x00; x01].

(** The ceiling of the sanity check on a NAL length. *)
Definition MAX_NAL_LEN : Z := 20000000.

(* ================================================================== *)
(** ** Files and file offsets *)

(** File offsets ([off_t]) are signed 64-bit integers. *)
Definition max_offset : Z := 9223372036854775807.
Definition min_offset : Z := -9223372036854775808.

(** A file on disk: its bytes, and the largest position its file system
    lets a descriptor seek to, which no file outgrows. *)
Record file := mkFile {
  file_bytes : list byte;
  max_position : Z;
  file_fits : Z.of_nat (length file_bytes) <= max_position /\
              max_position <= max_offset
}.

Definition take_fits (bytes : list byte) :
  Z.of_nat (length (take max_offset bytes)) <= max_offset /\
  max_offset <= max_offset.
Proof.
  split; [| apply Z.le_refl].
  assert (H : forall (l : list byte) n,
             0 <= n -> Z.of_nat (length (take n l)) <= n).
  { induction l as [|x l IH]; intros n Hn; cbn [take length].
    - exact Hn.
    - destruct (n <=? 0) eqn:E; cbn [length].
      + exact Hn.
      + apply Z.leb_gt in E. specialize (IH (n - 1) ltac:(lia)). lia. }
  apply H. unfold max_offset. lia.
Qed.

(** The file holding [bytes] on a file system without a limit of its own
    (what lies beyond the largest offset is cut). *)
Definition store (bytes : list byte) : file :=
  mkFile (take max_offset bytes) max_offset (take_fits bytes).

(* ================================================================== *)
(** ** The world of one run *)

(** Call sites of the operations that can raise [OSError]. *)
Inductive site :=
| MkStemp | CloseFd
| OpenInput | OpenTemp | WriteHeaders
| ReadAtomHeader | TellMdat | ReadMdatLargeSize | ReadSkipLargeSize | SeekSkip
| ReadNalLength | ReadNalData | WriteNalStartCode | WriteNalData
| CloseTemp | RemoveNoMdat | RemoveFinally.

(** The sites inside the [try] around the extraction loop. *)
Definition in_extraction (s : site) : bool :=
  match s with
  | ReadNalLength | ReadNalData | WriteNalStartCode | WriteNalData => true
  | _ => false
  end.

(** The calls that create and remove the temporary file; the other sites
    are operations on [f_in] and [f_out]. *)
Definition is_sys_call (s : site) : bool :=
  match s with
  | MkStemp | CloseFd | RemoveNoMdat | RemoveFinally => true
  | _ => false
  end.

Definition is_nal_data (s : site) : bool :=
  match s with WriteNalData => true | _ => false end.

Record world := mkWorld {
  src : file;                        (* the file at input_path *)
  temp_file : option (list byte);    (* file at temp_h264; None: absent *)
  buffer_size : Z;                   (* size of the buffer of f_out *)
  out_buffer : list byte;            (* written to f_out, not yet on disk *)
  cursor : Z;                        (* read position of f_in *)
  clock : nat;                       (* ghost: device accesses and buffered
                                        writes of f_in and f_out so far *)
  sys_calls : nat;                   (* ghost: calls of mkstemp, os.close
                                        and os.remove so far *)
  failures : list site;              (* ghost: the operations that raised
                                        OSError, in order *)
  write_log : list (site * list byte) (* ghost: the f_out.write calls done *)
}.

(** The bytes stored at input_path. *)
Abbreviation input_file w := (file_bytes (src w)).

Definition set_cursor (c : Z) (w : world) : world :=
  mkWorld (src w) (temp_file w) (buffer_size w) (out_buffer w) c
          (clock w) (sys_calls w) (failures w) (write_log w).

Definition set_temp (t : option (list byte)) (w : world) : world :=
  mkWorld (src w) t (buffer_size w) (out_buffer w) (cursor w)
          (clock w) (sys_calls w) (failures w) (write_log w).

Definition set_buffer (b : list byte) (w : world) : world :=
  mkWorld (src w) (temp_file w) (buffer_size w) b (cursor w)
          (clock w) (sys_calls w) (failures w) (write_log w).

Definition tick (w : world) : world :=
  mkWorld (src w) (temp_file w) (buffer_size w) (out_buffer w) (cursor w)
          (S (clock w)) (sys_calls w) (failures w) (write_log w).

Definition tick_sys (w : world) : world :=
  mkWorld (src w) (temp_file w) (buffer_size w) (out_buffer w) (cursor w)
          (clock w) (S (sys_calls w)) (failures w) (write_log w).

Definition note_failure (s : site) (w : world) : world :=
  mkWorld (src w) (temp_file w) (buffer_size w) (out_buffer w) (cursor w)
          (clock w) (sys_calls w) (failures w ++ [s]) (write_log w).

Definition log_write (s : site) (data : list byte) (w : world) : world :=
  mkWorld (src w) (temp_file w) (buffer_size w) (out_buffer w) (cursor w)
          (clock w) (sys_calls w) (failures w) (write_log w ++ [(s, data)]).

(** The number of operations attempted so far. *)
Definition ops (w : world) : nat := (sys_calls w + clock w)%nat.

Definition bytes_of (t : option (list byte)) : list byte :=
  match t with Some x => x | None => [] end.

Definition temp_bytes (w : world) : list byte := bytes_of (temp_file w).

(** What the temporary file holds once the buffer is flushed. *)
Definition written (w : world) : list byte := temp_bytes w ++ out_buffer w.

(** The buffer goes to the file. *)
Definition flush_out (w : world) : world :=
  set_buffer [] (set_temp (Some (written w)) w).

(** The payloads written by [f_out.write(nal_data)], in order. *)
Definition nal_units (w : world) : list (list byte) :=
  map snd (filter (fun e => is_nal_data (fst e)) (write_log w)).

(** [io.DEFAULT_BUFFER_SIZE].  The buffer [open] gives [f_out] has the
    block size of the file system, or this size. *)
Definition DEFAULT_BUFFER_SIZE : Z := 8192.

(** A disk holding [input] at input_path and nothing at the temp path. *)
Definition disk (input : list byte) : world :=
  mkWorld (store input) None DEFAULT_BUFFER_SIZE [] 0 0 0 [] [].

(* ================================================================== *)
(** ** The monad of the run *)

Definition M (A : Type) : Type := world -> result A * world.

Definition ret {A} (a : A) : M A := fun w => (Ok a, w).

Definition bind {A B} (m : M A) (k : A -> M B) : M B :=
  fun w =>
    match m w with
    | (Ok a, w') => k a w'
    | (Raise e, w') => (Raise e, w')
    | (OutOfFuel, w') => (OutOfFuel, w')
    end.

Definition lift {A} (r : result A) : M A := fun w => (r, w).

Notation "x <- m ;; k" := (bind m (fun x => k))
  (at level 61, m at next level, right associativity).
Notation "m ;;; k" := (bind m (fun _ => k))
  (at level 61, right associativity).

Section WithBlock.

(** [fault k] tells whether the device fails in the [k]-th operation of
    the run. *)
Variable fault : nat -> bool.

(** An access to the device from [f_in] or [f_out]. *)
Definition io {A} (s : site) (op : M A) : M A :=
  fun w =>
    if fault (ops w) then (Raise OSError, note_failure s (tick w))
    else op (tick w).

(** [open(input_path, "rb")] *)
Definition open_input : M unit :=
  io OpenInput (fun w => (Ok tt, set_cursor 0 w)).

(** [open(temp_h264, "wb")]: creates or truncates; the buffer is empty. *)
Definition open_temp : M unit :=
  io OpenTemp (fun w => (Ok tt, set_buffer [] (set_temp (Some []) w))).

(** [f_in.read(n)]: up to [n] bytes from the cursor, fewer only at the
    end of the file; nothing when the cursor is past the end. *)
Definition f_in_read (s : site) (n : Z) : M (list byte) :=
  io s (fun w =>
          let data := take n (drop (cursor w) (input_file w)) in
          (Ok data, set_cursor (cursor w + Z.of_nat (length data)) w)).

(** [f_in.tell()] *)
Definition f_in_tell (s : site) : M Z :=
  io s (fun w => (Ok (cursor w), w)).

(** [f_in.seek(offset, 1)]: relative seek.  An offset that is not a file
    offset is refused before the device is asked ([ValueError]); a target
    that is negative or beyond the largest position is EINVAL; a target
    past the end of the file is allowed. *)
Definition f_in_seek_cur (s : site) (offset : Z) : M unit :=
  if (offset <? min_offset) || (max_offset <? offset) then lift (Raise ValueError)
  else
    io s (fun w =>
            let target := cursor w + offset in
            if (target <? 0) || (max_position (src w) <? target)
            then (Raise OSError, note_failure s w)
            else (Ok tt, set_cursor target w)).

(** Flushing [f_out]: the pending bytes, if any, are written to the
    file; when the device fails they stay in the buffer. *)
Definition f_out_flush (s : site) : M unit :=
  fun w =>
    match out_buffer w with
    | [] => (Ok tt, w)
    | _ :: _ => io s (fun w1 => (Ok tt, flush_out w1)) w
    end.

(** [f_out.write(data)]: data that fit the room left in the buffer are
    copied there.  Otherwise the buffer is flushed first; then data larger
    than the buffer are written through to the file, smaller ones are
    buffered.  When the call raises, none of [data] is kept. *)
Definition f_out_write (s : site) (data : list byte) : M unit :=
  fun w =>
    if Z.of_nat (length data) <=? buffer_size w - Z.of_nat (length (out_buffer w))
    then (Ok tt, log_write s data (set_buffer (out_buffer w ++ data) (tick w)))
    else
      (f_out_flush s ;;;
       fun w1 =>
         if buffer_size w1 <? Z.of_nat (length data)
         then io s (fun w2 =>
                      (Ok tt, log_write s data
                                (set_temp (Some (temp_bytes w2 ++ data)) w2))) w1
         else (Ok tt, log_write s data (set_buffer data w1))) w.

(** [f_out.close()]: flushes. *)
Definition f_out_close : M unit := f_out_flush CloseTemp.

(** Lines 93-119: the extraction loop. *)
Fixpoint extract_nals (fuel : nat) : M unit :=
  match fuel with
  | O => lift OutOfFuel
  | S fuel' =>
      length_bytes <- f_in_read ReadNalLength 4 ;;
      if Z.of_nat (length length_bytes) <? 4 then ret tt
      else
        nal_len <- lift (struct_unpack_uint 4 length_bytes) ;;
        if (nal_len >? MAX_NAL_LEN) || (nal_len =? 0) then ret tt
        else
          nal_data <- f_in_read ReadNalData nal_len ;;
          if Z.of_nat (length nal_data) <? nal_len then ret tt
          else
            f_out_write WriteNalStartCode START_CODE ;;;
            f_out_write WriteNalData nal_data ;;;
            extract_nals fuel'
  end.

(** Every iteration that goes on consumes at least five bytes, so this
    much fuel is never used up. *)
Definition extraction_loop : M unit :=
  fun w => extract_nals (S (length (input_file w))) w.

(** Lines 92 and 124-125: [except (IOError, OSError, struct.error)]
    around the extraction loop prints and goes on. *)
Definition try_extraction (body : M unit) : M unit :=
  fun w =>
    match body w with
    | (Raise OSError, w') => (Ok tt, w')
    | (Raise StructError, w') => (Ok tt, w')
    | other => other
    end.

(** Lines 62-139: the box-scanning loop.  Its value is [found_mdat] when
    the loop is left. *)
Fixpoint scan_atoms (fuel : nat) : M bool :=
  match fuel with
  | O => lift OutOfFuel
  | S fuel' =>
      header <- f_in_read ReadAtomHeader 8 ;;
      if Z.of_nat (length header) <? 8 then ret false
      else
        let '(atom_size, atom_type) := struct_unpack_I4s header in
        let atom_name := decode_ascii_ignore atom_type in
        if String.eqb atom_name "mdat" then
          f_in_tell TellMdat ;;;
          (if atom_size =? 1 then
             large_size <- f_in_read ReadMdatLargeSize 8 ;;
             lift (struct_unpack_uint 8 large_size)
           else ret atom_size) ;;;
          try_extraction extraction_loop ;;;
          ret true
        else if atom_size =? 1 then
          large_size <- f_in_read ReadSkipLargeSize 8 ;;
          atom_size' <- lift (struct_unpack_uint 8 large_size) ;;
          f_in_seek_cur SeekSkip (atom_size' - 16) ;;;
          scan_atoms fuel'
        else if atom_size =? 0 then ret false
        else
          f_in_seek_cur SeekSkip (atom_size - 8) ;;;
          scan_atoms fuel'
  end.

(** Leaving the with-block, by its end or by an exception: [f_out] is
    closed, then [f_in].  An [OSError] of the flush replaces the exception
    on its way, if any. *)
Definition with_exit {A} (body : M A) : M A :=
  fun w =>
    match body w with
    | (OutOfFuel, w1) => (OutOfFuel, w1)
    | (r, w1) =>
        match f_out_close w1 with
        | (Ok _, w2) => (r, w2)
        | (Raise e, w2) => (Raise e, w2)
        | (OutOfFuel, w2) => (OutOfFuel, w2)
        end
    end.

(** Lines 54-139: the with-block. *)
Definition with_files (fuel : nat) : M bool :=
  open_input ;;;
  open_temp ;;;
  with_exit
    (f_out_write WriteHeaders START_CODE ;;;
     f_out_write WriteHeaders SPS ;;;
     f_out_write WriteHeaders START_CODE ;;;
     f_out_write WriteHeaders PPS ;;;
     scan_atoms fuel).

(** A call of the operating system outside [f_in] and [f_out]. *)
Definition sys {A} (s : site) (op : M A) : M A :=
  fun w =>
    if fault (ops w) then (Raise OSError, note_failure s (tick_sys w))
    else op (tick_sys w).

(** [tempfile.mkstemp]: a new empty file. *)
Definition mkstemp : M unit :=
  sys MkStemp (fun w => (Ok tt, set_temp (Some []) w)).

(** [os.close(fd)] *)
Definition os_close : M unit := sys CloseFd (ret tt).

(** [if os.path.exists(temp_h264): os.remove(temp_h264)] *)
Definition remove_temp (s : site) : M unit :=
  fun w =>
    match temp_file w with
    | Some _ => sys s (fun w1 => (Ok tt, set_temp None w1)) w
    | None => (Ok tt, w)
    end.

End WithBlock.

(* ================================================================== *)
(** ** recover_file *)

(** What [subprocess.run] on ffmpeg does: it exits with a return code, or
    the process cannot be started ([OSError]). *)
Inductive mux_result := Exited (returncode : Z) | SpawnFailed.

Record outcome := mkOutcome {
  returned : result bool;           (* value returned, exception, or looping *)
  mux_input : option (option (list byte));
    (* None: ffmpeg not run; Some t: run on the temp file, whose content
       was t *)
  final : world
}.

(** A run starts with no temporary file of its own, fresh handles and
    empty ghost fields. *)
Definition begin_run (w : world) : world :=
  mkWorld (src w) None (buffer_size w) [] 0 0 0 [] [].

Section RecoverFile.

Variable fault : nat -> bool.
(** ffmpeg as a function of the content of its input file. *)
Variable ffmpeg : option (list byte) -> mux_result.

(** Lines 177-181: the [finally] clause, entered with the result [r] of
    the [try] statement; an exception raised there replaces it. *)
Definition finally (r : result bool) (muxed : option (option (list byte)))
           (w : world) : outcome :=
  match remove_temp fault RemoveFinally w with
  | (Ok _, w') => mkOutcome r muxed w'
  | (Raise e, w') => mkOutcome (Raise e) muxed w'
  | (OutOfFuel, w') => mkOutcome OutOfFuel muxed w'
  end.

Definition recover_file (fuel : nat) (w : world) : outcome :=
  (* lines 49-50, before the try statement *)
  match (mkstemp fault ;;; os_close fault) (begin_run w) with
  | (Raise e, w0) => mkOutcome (Raise e) None w0
  | (OutOfFuel, w0) => mkOutcome OutOfFuel None w0
  | (Ok _, w0) =>
      match with_files fault fuel w0 with
      | (OutOfFuel, w1) => mkOutcome OutOfFuel None w1
      | (Ok found_mdat, w1) =>
          if negb found_mdat then
            (* lines 141-145: an OSError of os.remove is caught at line
               174, which returns False as well *)
            finally (Ok false) None (snd (remove_temp fault RemoveNoMdat w1))
          else
            match ffmpeg (temp_file w1) with
            | Exited returncode =>
                finally (Ok (returncode =? 0)) (Some (temp_file w1)) w1
            | SpawnFailed =>
                (* except (IOError, OSError, SubprocessError) *)
                finally (Ok false) (Some (temp_file w1)) w1
            end
      | (Raise OSError, w1) =>
          (* except (IOError, OSError, SubprocessError) *)
          finally (Ok false) None w1
      | (Raise e, w1) =>
          (* not caught: the exception leaves recover_file *)
          finally (Raise e) None w1
      end
  end.

End RecoverFile.

Definition no_faults : nat -> bool := fun _ => false.

(* ================================================================== *)
(** ** main and the default output path *)

(** Python [str] values are lists of characters. *)
Definition str (s : string) : list ascii := list_ascii_of_string s.

(** [p.rfind(c)]: index of the last occurrence of [c], or -1. *)
Fixpoint rfind_from (c : ascii) (p : list ascii) (i : Z) : Z :=
  match p with
  | [] => -1
  | a :: p' =>
      let r := rfind_from c p' (i + 1) in
      if 0 <=? r then r else if Ascii.eqb a c then i else -1
  end.

Definition rfind (c : ascii) (p : list ascii) : Z := rfind_from c p 0.

(** [p[i:i+1] != "."] *)
Definition not_dot_at (p : list ascii) (i : Z) : bool :=
  match take 1 (drop i p) with
  | [a] => negb (Ascii.eqb a ".")
  | _ => true
  end.

(** The loop of [genericpath._splitext] that skips the leading dots of the
    file name; [n] bounds the iterations left. *)
Fixpoint skip_leading_dots (n : nat) (p : list ascii)
         (filenameIndex dotIndex : Z) : option (list ascii * list ascii) :=
  match n with
  | O => None
  | S n' =>
      if filenameIndex <? dotIndex then
        if not_dot_at p filenameIndex
        then Some (take dotIndex p, drop dotIndex p)
        else skip_leading_dots n' p (filenameIndex + 1) dotIndex
      else None
  end.

(** [os.path.splitext] of the Python standard library on POSIX
    ([genericpath._splitext] with sep "/", no altsep, extsep "."): the
    extension starts at the last dot of the last path component, leading
    dots of that component apart. *)
Definition splitext (p : list ascii) : list ascii * list ascii :=
  let sepIndex := rfind "/" p in
  let dotIndex := rfind "." p in
  if dotIndex >? sepIndex then
    match skip_leading_dots (Z.to_nat (dotIndex - sepIndex)) p
                            (sepIndex + 1) dotIndex with
    | Some r => r
    | None => (p, [])
    end
  else (p, []).

(** What [main] does with [sys.argv]: exit with a status after the usage
    message, or call [recover_file]. *)
(** What [main] does with [sys.argv]: exit with a status after the usage
    message, call [recover_file], or let the [IndexError] of
    [sys.argv[0]] out. *)
Inductive main_action :=
| SysExit (status : Z)
| CallRecoverFile (in_file out_file : list ascii)
| RaiseIndexError.

Definition main (argv : list (list ascii)) : main_action :=
  if (length argv <? 2)%nat then
    (* the usage message is formatted with sys.argv[0] *)
    match nth_error argv 0 with
    | Some _ => SysExit 1
    | None => RaiseIndexError
    end
  else
    let in_file := nth 1 argv [] in
    let out_file :=
      if (3 <=? length argv)%nat then nth 2 argv []
      else let '(base, _) := splitext in_file in (base ++ str "_fixed.mp4")%list in
    CallRecoverFile in_file out_file.

(* ================================================================== *)
(** ** Inputs: boxes, the mdat header, AVCC records *)

Definition mdat_tag : list byte := [x6d; x64; x61; x74].

(** A top-level box other than the payload box, complete in the file:
    normal form (32-bit size) or extended form (size field 1, 64-bit
    size); the declared size counts the header. *)
Record box := mkBox {
  box_large : bool;
  box_type : list byte;
  box_body : list byte
}.

Definition box_size (b : box) : Z :=
  (if box_large b then 16 else 8) + Z.of_nat (length (box_body b)).

Definition encode_box (b : box) : list byte :=
  if box_large b
  then pack_I 1 ++ box_type b ++ pack_Q (box_size b) ++ box_body b
  else pack_I (box_size b) ++ box_type b ++ box_body b.

Definition skippable (b : box) : Prop :=
  length (box_type b) = 4%nat /\ box_type b <> mdat_tag /\
  box_size b < (if box_large b then 2 ^ 64 else 2 ^ 32).

Definition encode_boxes (bs : list box) : list byte := flat_map encode_box bs.

(** The header of the payload box; the declared size is not constrained. *)
Inductive mdat_header :=
| MdatNormal (atom_size : Z)
| MdatLarge (large_size : Z).

Definition encode_mdat_header (h : mdat_header) : list byte :=
  match h with
  | MdatNormal atom_size => pack_I atom_size ++ mdat_tag
  | MdatLarge large_size => pack_I 1 ++ mdat_tag ++ pack_Q large_size
  end.

Definition mdat_header_ok (h : mdat_header) : Prop :=
  match h with
  | MdatNormal atom_size => 0 <= atom_size < 2 ^ 32 /\ atom_size <> 1
  | MdatLarge large_size => 0 <= large_size < 2 ^ 64
  end.

(** One length-prefixed record and a run of them. *)
Definition avcc_record (p : list byte) : list byte :=
  pack_I (Z.of_nat (length p)) ++ p.

Definition avcc (ps : list (list byte)) : list byte := flat_map avcc_record ps.

Definition valid_nal (p : list byte) : Prop :=
  1 <= Z.of_nat (length p) <= MAX_NAL_LEN.

(** An Annex B stream: every unit preceded by the start code. *)
Definition annexb (units : list (list byte)) : list byte :=
  flat_map (fun u => START_CODE ++ u) units.

(* ================================================================== *)
(** ** States reached along a run (used to state the loop lemmas) *)

(** The bytes of the input file from the cursor on. *)
Definition remaining (w : world) : list byte :=
  drop (cursor w) (input_file w).

(** The bytes written first: both parameter sets, each after a start
    code. *)
Definition parameter_sets : list byte := START_CODE ++ SPS ++ START_CODE ++ PPS.

(** The write calls of lines 56-59, and those of the extraction loop for
    the payloads [ps]. *)
Definition header_writes : list (site * list byte) :=
  [(WriteHeaders, START_CODE); (WriteHeaders, SPS);
   (WriteHeaders, START_CODE); (WriteHeaders, PPS)].

Definition unit_writes (ps : list (list byte)) : list (site * list byte) :=
  flat_map (fun p => [(WriteNalStartCode, START_CODE); (WriteNalData, p)]) ps.

(** The bytes of a list of write calls. *)
Definition bytes_written (log : list (site * list byte)) : list byte :=
  concat (map snd log).

(** [w'] is [w] after steps that did not raise, moved the cursor by
    [moved] and made the write calls [log]. *)
Definition advanced (moved : Z) (log : list (site * list byte))
           (w w' : world) : Prop :=
  src w' = src w /\ buffer_size w' = buffer_size w /\
  cursor w' = cursor w + moved /\
  written w' = written w ++ bytes_written log /\
  write_log w' = write_log w ++ log /\
  failures w' = failures w /\
  (temp_file w <> None -> temp_file w' <> None).

(** After [mkstemp] and [os.close], without failure. *)
Definition started (w : world) : world :=
  mkWorld (src w) (Some []) (buffer_size w) [] 0 0 2 [] [].

(** After the files were opened and the parameter sets written, without
    failure, when the buffer of [f_out] has room for these 44 bytes. *)
Definition after_headers (w : world) : world :=
  mkWorld (src w) (Some []) (buffer_size w) parameter_sets 0 6 2 []
          header_writes.

(** After [os.remove] on the temporary file, if there is one, without
    failure. *)
Definition removed (w : world) : world :=
  match temp_file w with
  | Some _ => set_temp None (tick_sys w)
  | None => w
  end.

(** The three ways the extraction loop ends without an exception, as
    conditions on the bytes left at the cursor. *)
Inductive stop_reason (rest : list byte) : Prop :=
| CleanEnd :
    (length rest < 4)%nat -> stop_reason rest
| CorruptLength (length_bytes tail : list byte) :
    rest = length_bytes ++ tail -> length length_bytes = 4%nat ->
    be_uint length_bytes = 0 \/ MAX_NAL_LEN < be_uint length_bytes ->
    stop_reason rest
| TruncatedUnit (length_bytes tail : list byte) :
    rest = length_bytes ++ tail -> length length_bytes = 4%nat ->
    1 <= be_uint length_bytes <= MAX_NAL_LEN ->
    Z.of_nat (length tail) < be_uint length_bytes ->
    stop_reason rest.

(** Whether the mux step counts as a success: return code 0. *)
Definition mux_status (r : mux_result) : bool :=
  match r with
  | Exited returncode => returncode =? 0
  | SpawnFailed => false
  end.

(** What [recover_file] makes of the way the with-block ended, leaving the
    [finally] clause aside: the value returned or the exception raised,
    and the file the mux step was run on, if it was. *)
Definition verdict (ffmpeg : option (list byte) -> mux_result)
           (r : result bool) (w : world)
  : result bool * option (option (list byte)) :=
  match r with
  | Ok true => (Ok (mux_status (ffmpeg (temp_file w))), Some (temp_file w))
  | Ok false => (Ok false, None)
  | Raise OSError => (Ok false, None)
  | Raise e => (Raise e, None)
  | OutOfFuel => (OutOfFuel, None)
  end.

(* ================================================================== *)
(** ** Sample inputs *)

Definition free_tag : list byte := [x66; x72; x65; x65].

Definition free_box : box := mkBox false free_tag [x00; x00].

Definition nal5 : list byte := [x65; x88; x84; x00; x21].
Definition nal7 : list byte := [x41; x9a; x24; x6c; x41; x4f; xff].

(** One 10-byte non-payload box, then a payload box of declared size 0
    with records of 5 and 7 bytes, then the end of the file. *)
Definition scenario_input : list byte :=
  encode_boxes [free_box] ++ encode_mdat_header (MdatNormal 0) ++
  avcc [nal5; nal7].

(** The same with a zero length field where the second record would
    start, followed by more bytes. *)
Definition corrupt_input : list byte :=
  encode_boxes [free_box] ++ encode_mdat_header (MdatNormal 0) ++
  avcc [nal5] ++ [x00; x00; x00; x00] ++ nal7.

(** The same with a final record that declares 7 bytes and has 3. *)
Definition truncated_input : list byte :=
  encode_boxes [free_box] ++ encode_mdat_header (MdatNormal 0) ++
  avcc [nal5] ++ pack_I 7 ++ [x41; x9a; x24].

Definition ffmpeg_ok : option (list byte) -> mux_result := fun _ => Exited 0.

(** A lone non-payload box header that announces an extended size, the
    file ending there: 00 00 00 01 66 72 65 65. *)
Definition cut_large_box_input : list byte := pack_I 1 ++ free_tag.

(** A non-payload box in extended form whose 64-bit size is 0:
    00 00 00 01 66 72 65 65 00 00 00 00 00 00 00 00. *)
Definition zero_large_size_input : list byte := pack_I 1 ++ free_tag ++ pack_Q 0.

(** A non-payload box header in extended form whose 64-bit size is
    2^64 - 1: 00 00 00 01 66 72 65 65 ff ff ff ff ff ff ff ff. *)
Definition huge_large_size_input : list byte :=
  pack_I 1 ++ free_tag ++ pack_Q (2 ^ 64 - 1).

(** A complete non-payload box in extended form (16 bytes of header, 2 of
    body), then a payload box holding one 5-byte record. *)
Definition large_box : box := mkBox true free_tag [x00; x00].

Definition large_box_input : list byte :=
  encode_boxes [large_box] ++ encode_mdat_header (MdatNormal 0) ++ avcc [nal5].

(** Every payload written so far is within the bounds of the sanity
    check. *)
Definition units_valid (w : world) : Prop := Forall valid_nal (nal_units w).

(** The temporary file exists and, with what is pending in the buffer,
    holds the two parameter units and the payloads written, each after a
    start code. *)
Definition stream_framed (w : world) : Prop :=
  written w = annexb (SPS :: PPS :: nal_units w) /\ temp_file w <> None.

(** The oracle under which exactly the [n]-th operation fails. *)
Definition fail_at (n : nat) : nat -> bool := fun k => Nat.eqb k n.


(** A payload box of declared size 0 holding one 5-byte record. *)
Definition mdat_only_input : list byte :=
  encode_mdat_header (MdatNormal 0) ++ avcc [nal5].




(** "At a non-payload header with size field 1 the scanner reads the
    extended size and seeks forward by that size minus 16": the next
    iteration starts at the position after these 16 bytes plus
    (extended size - 16). *)
Definition seeks_by_extended_size (fuel : nat) (w : world) : Prop :=
  forall size_bytes tag large_size rest,
    remaining w = size_bytes ++ tag ++ large_size ++ rest ->
    length size_bytes = 4%nat -> length tag = 4%nat -> tag <> mdat_tag ->
    length large_size = 8%nat -> be_uint size_bytes = 1 ->
    scan_atoms no_faults (S fuel) w =
    scan_atoms no_faults fuel
      (set_cursor (cursor w + 16 + (be_uint large_size - 16))
                  (tick (tick (tick w)))).

(** [m2] agrees with [m1] wherever [m1] does not run out of fuel. *)
Definition refines {A} (m1 m2 : M A) : Prop :=
  forall w r w', m1 w = (r, w') -> r <> OutOfFuel -> m2 w = (r, w').

(** How an access to the device can fail: it raised [OSError] and left
    the world as it was, but for the clock and the note of the failure. *)
Inductive io_failed (fault : nat -> bool) (s : site) (w : world)
  {A} (r : result A) (w' : world) : Prop :=
| IoFailed : fault (ops w) = true -> r = Raise OSError ->
             w' = note_failure s (tick w) -> io_failed fault s w r w'.

(** How a call of [f_out.write] can end.  It returned: its data are in the
    file or pending in the buffer, after what was there, and the call is
    logged.  Or the device failed and it raised [OSError]: file and buffer
    together hold what they held. *)
Inductive out_step (fault : nat -> bool) (s : site) (data : list byte)
  (w : world) : result unit -> world -> Prop :=
| OutDone t b c :
    bytes_of t ++ b = written w ++ data ->
    (temp_file w <> None -> t <> None) ->
    out_step fault s data w (Ok tt)
      (mkWorld (src w) t (buffer_size w) b (cursor w) c (sys_calls w)
               (failures w) (write_log w ++ [(s, data)]))
| OutFailed t b c k :
    fault k = true ->
    bytes_of t ++ b = written w ->
    (temp_file w <> None -> t <> None) ->
    out_step fault s data w (Raise OSError)
      (mkWorld (src w) t (buffer_size w) b (cursor w) c (sys_calls w)
               (failures w ++ [s]) (write_log w)).

(** At offset [p] of the input stands a non-payload box header in extended
    form whose 64-bit size is 0. *)
Definition zero_large_size_at (input : list byte) (p : Z) : Prop :=
  let hdr := take 16 (drop p input) in
  length hdr = 16%nat /\
  be_uint (firstn 4 hdr) = 1 /\
  skipn 4 (firstn 8 hdr) <> mdat_tag /\
  be_uint (skipn 8 hdr) = 0.

(** The ways the box scan ends without a payload box, as conditions on
    the bytes left at the cursor: fewer than 8 bytes, or a non-payload
    header with size field 0. *)
Inductive scan_end (rest : list byte) : Prop :=
| ShortHeader : (length rest < 8)%nat -> scan_end rest
| RestOfFile (size_bytes tag tail : list byte) :
    rest = size_bytes ++ tag ++ tail ->
    length size_bytes = 4%nat -> length tag = 4%nat -> tag <> mdat_tag ->
    be_uint size_bytes = 0 -> scan_end rest.

(** The cursor lies within the input file and the temporary file, with
    what is pending in the buffer, holds at most 44 bytes more than were
    read. *)
Definition within_budget (w : world) : Prop :=
  0 <= cursor w <= Z.of_nat (length (input_file w)) /\
  Z.of_nat (length (written w)) <= 44 + cursor w.

(** The stream on which the mux step is run after operation [s] failed
    inside the extraction loop: the parameter units and the units written
    before, and the start code of the next unit when it is the write of
    its payload that failed. *)
Definition stream_at_failure (s : site) (w : world) : list byte :=
  annexb (SPS :: PPS :: nal_units w) ++
  (if is_nal_data s then START_CODE else []).

(** An input of 13 bytes: a payload box holding one 1-byte record. *)
Definition tiny_input : list byte :=
  encode_mdat_header (MdatNormal 0) ++ avcc [[x65]].

(* ================================================================== *)
(** * Properties *)

(** ** Slices *)

Lemma take_firstn {A} (l : list A) : forall n, take n l = firstn (Z.to_nat n) l.
Proof.
  induction l as [|x l IH]; intros n; simpl.
  - now rewrite firstn_nil.
  - destruct (n <=? 0) eqn:E.
    + apply Z.leb_le in E. replace (Z.to_nat n) with 0%nat by lia. reflexivity.
    + apply Z.leb_gt in E. replace (Z.to_nat n) with (S (Z.to_nat (n - 1))) by lia.
      simpl. now rewrite IH.
Qed.

Lemma drop_skipn {A} (l : list A) : forall n, drop n l = skipn (Z.to_nat n) l.
Proof.
  induction l as [|x l IH]; intros n; simpl.
  - now rewrite skipn_nil.
  - destruct (n <=? 0) eqn:E.
    + apply Z.leb_le in E. replace (Z.to_nat n) with 0%nat by lia. reflexivity.
    + apply Z.leb_gt in E. replace (Z.to_nat n) with (S (Z.to_nat (n - 1))) by lia.
      simpl. now rewrite IH.
Qed.

Lemma take_app_exact {A} (a b : list A) n :
  n = Z.of_nat (length a) -> take n (a ++ b) = a.
Proof.
  intros ->. rewrite take_firstn, Nat2Z.id.
  rewrite firstn_app, Nat.sub_diag, firstn_all. simpl. now rewrite app_nil_r.
Qed.

Lemma take_short {A} (l : list A) n :
  Z.of_nat (length l) <= n -> take n l = l.
Proof.
  intros H. rewrite take_firstn. apply firstn_all2. lia.
Qed.

Lemma drop_add {A} (l : list A) c k :
  0 <= c -> drop (c + Z.of_nat k) l = skipn k (drop c l).
Proof.
  intros Hc. rewrite !drop_skipn, skipn_skipn. f_equal. lia.
Qed.

Lemma skipn_app_exact {A} (a b : list A) k :
  k = length a -> skipn k (a ++ b) = b.
Proof.
  intros ->. rewrite skipn_app, Nat.sub_diag, skipn_all. reflexivity.
Qed.

(** ** [struct.pack] and [struct.unpack] agree *)

Lemma byte_val_range b : 0 <= byte_val b < 256.
Proof.
  unfold byte_val. pose proof (Byte.to_N_bounded b). lia.
Qed.

Lemma byte_val_of_Z z : byte_val (byte_of_Z z) = z mod 256.
Proof.
  unfold byte_of_Z, byte_val.
  pose proof (Z.mod_pos_bound z 256 eq_refl) as Hr.
  destruct (Byte.of_N (Z.to_N (z mod 256))) as [b|] eqn:E.
  - apply Byte.to_of_N in E. rewrite E. lia.
  - apply Byte.of_N_None_iff in E. lia.
Qed.

Lemma be_uint_snoc bs b : be_uint (bs ++ [b]) = be_uint bs * 256 + byte_val b.
Proof.
  unfold be_uint. now rewrite fold_left_app.
Qed.

Lemma be_uint_nonneg bs : 0 <= be_uint bs.
Proof.
  induction bs as [|b bs IH] using rev_ind.
  - reflexivity.
  - rewrite be_uint_snoc. pose proof (byte_val_range b). lia.
Qed.

Lemma pack_be_length n : forall z, length (pack_be n z) = n.
Proof.
  induction n as [|n IH]; intros z; simpl.
  - reflexivity.
  - rewrite length_app, IH. simpl. lia.
Qed.

Lemma be_uint_pack_be n : forall z, be_uint (pack_be n z) = z mod 256 ^ Z.of_nat n.
Proof.
  induction n as [|n IH]; intros z.
  - simpl. now rewrite Z.mod_1_r.
  - cbn [pack_be]. rewrite be_uint_snoc, IH, byte_val_of_Z.
    rewrite Nat2Z.inj_succ, Z.pow_succ_r by lia.
    rewrite Z.rem_mul_r by lia. lia.
Qed.

Lemma unpack_pack_I z : 0 <= z < 2 ^ 32 -> be_uint (pack_I z) = z.
Proof.
  intros H. unfold pack_I. rewrite be_uint_pack_be.
  change (256 ^ Z.of_nat 4) with (2 ^ 32). now apply Z.mod_small.
Qed.

Lemma unpack_pack_Q z : 0 <= z < 2 ^ 64 -> be_uint (pack_Q z) = z.
Proof.
  intros H. unfold pack_Q. rewrite be_uint_pack_be.
  change (256 ^ Z.of_nat 8) with (2 ^ 64). now apply Z.mod_small.
Qed.

Lemma pack_I_length z : length (pack_I z) = 4%nat.
Proof. apply pack_be_length. Qed.

Lemma pack_Q_length z : length (pack_Q z) = 8%nat.
Proof. apply pack_be_length. Qed.

(** A four-byte tag decodes to "mdat" exactly when it is the bytes
    m, d, a, t: dropping a byte would leave fewer than four characters. *)
Lemma filter_length_eq {A} (f : A -> bool) l :
  length (filter f l) = length l -> filter f l = l.
Proof.
  induction l as [|x l IH]; simpl; intros H.
  - reflexivity.
  - destruct (f x); simpl in H.
    + f_equal. apply IH. lia.
    + pose proof (filter_length_le f l). lia.
Qed.

Lemma decode_mdat tag :
  length tag = 4%nat ->
  String.eqb (decode_ascii_ignore tag) "mdat" = true <-> tag = mdat_tag.
Proof.
  intros Hlen. unfold decode_ascii_ignore. split.
  - intros H. apply String.eqb_eq in H.
    apply (f_equal list_byte_of_string) in H.
    rewrite list_byte_of_string_of_list_byte in H.
    change (list_byte_of_string "mdat") with mdat_tag in H.
    rewrite <- H. symmetry. apply filter_length_eq.
    rewrite H, Hlen. reflexivity.
  - intros ->. reflexivity.
Qed.

Lemma decode_not_mdat tag :
  length tag = 4%nat -> tag <> mdat_tag ->
  String.eqb (decode_ascii_ignore tag) "mdat" = false.
Proof.
  intros Hlen Hne.
  destruct (String.eqb (decode_ascii_ignore tag) "mdat") eqn:E; [|reflexivity].
  apply decode_mdat in E; [contradiction | assumption].
Qed.

(** ** Runs without I/O failures: the primitives *)

Lemma input_fits w :
  Z.of_nat (length (input_file w)) <= max_position (src w) /\
  max_position (src w) <= max_offset.
Proof. exact (file_fits (src w)). Qed.

Lemma read_no_faults s n w :
  f_in_read no_faults s n w =
  (Ok (take n (remaining w)),
   set_cursor (cursor w + Z.of_nat (length (take n (remaining w)))) (tick w)).
Proof. reflexivity. Qed.

Lemma tell_no_faults s w : f_in_tell no_faults s w = (Ok (cursor w), tick w).
Proof. reflexivity. Qed.

Lemma seek_no_faults s offset w :
  min_offset <= offset <= max_offset ->
  0 <= cursor w + offset <= max_position (src w) ->
  f_in_seek_cur no_faults s offset w =
  (Ok tt, set_cursor (cursor w + offset) (tick w)).
Proof.
  intros Ho Ht. unfold f_in_seek_cur.
  replace (offset <? min_offset) with false by (symmetry; apply Z.ltb_ge; lia).
  replace (max_offset <? offset) with false by (symmetry; apply Z.ltb_ge; lia).
  cbn [orb]. unfold io, no_faults. cbn [cursor src tick].
  replace (cursor w + offset <? 0) with false by (symmetry; apply Z.ltb_ge; lia).
  replace (max_position (src w) <? cursor w + offset) with false
    by (symmetry; apply Z.ltb_ge; lia).
  reflexivity.
Qed.

(** Steps that did not raise compose. *)
Ltac advanced_fields :=
  unfold advanced, written, temp_bytes, bytes_written, flush_out;
  cbn [src buffer_size cursor temp_file out_buffer write_log failures
       set_cursor set_temp set_buffer tick log_write bytes_of map snd concat];
  rewrite ?app_nil_r.

Lemma advanced_refl w : advanced 0 [] w w.
Proof. advanced_fields. repeat split; auto. lia. Qed.

Lemma advanced_trans m1 m2 l1 l2 w w1 w2 :
  advanced m1 l1 w w1 -> advanced m2 l2 w1 w2 ->
  advanced (m1 + m2) (l1 ++ l2) w w2.
Proof.
  intros (Hs1 & Hb1 & Hc1 & Hw1 & Hl1 & Hf1 & Ht1)
         (Hs2 & Hb2 & Hc2 & Hw2 & Hl2 & Hf2 & Ht2).
  unfold advanced. rewrite Hs2, Hb2, Hc2, Hw2, Hl2, Hf2, Hs1, Hb1, Hc1, Hw1, Hl1, Hf1.
  unfold bytes_written. rewrite map_app, concat_app, <- !app_assoc.
  repeat split; auto. lia.
Qed.

Lemma advanced_moved m m' l w w' :
  advanced m l w w' -> m = m' -> advanced m' l w w'.
Proof. now intros H <-. Qed.

(** [f_out.write] without failure: the data follow what was written. *)
Lemma write_no_faults s data w :
  exists w', f_out_write no_faults s data w = (Ok tt, w') /\
             advanced 0 [(s, data)] w w'.
Proof.
  unfold f_out_write.
  destruct (Z.of_nat (length data) <=? _).
  - eexists. split; [reflexivity|]. advanced_fields.
    repeat split; auto; try lia; try discriminate. now rewrite app_assoc.
  - unfold bind, f_out_flush.
    destruct (out_buffer w) as [|x b] eqn:Eb;
      [| unfold io at 1, no_faults at 1; cbv beta iota];
      cbn [buffer_size flush_out set_buffer set_temp tick];
      destruct (buffer_size w <? _);
      try (unfold io, no_faults; cbv beta iota);
      (eexists; split; [reflexivity|]); do 2 advanced_fields; rewrite ?Eb;
      rewrite ?app_nil_r, <- ?app_assoc;
      repeat split; auto; try lia; try discriminate.
Qed.

Lemma remaining_advance w k :
  0 <= cursor w ->
  remaining (set_cursor (cursor w + Z.of_nat k) (tick w)) = skipn k (remaining w).
Proof.
  intros H. unfold remaining. simpl. now apply drop_add.
Qed.

Lemma advanced_remaining a rest m l w w' :
  advanced m l w w' -> m = Z.of_nat (length a) ->
  0 <= cursor w -> remaining w = a ++ rest ->
  0 <= cursor w' /\ remaining w' = rest.
Proof.
  intros (Hs & _ & Hc & _) -> Hc0 Hrem. split; [lia|].
  unfold remaining in *. rewrite Hs, Hc, drop_add, Hrem by assumption.
  now apply skipn_app_exact.
Qed.

Lemma extract_nals_S fault fuel :
  extract_nals fault (S fuel) =
  (length_bytes <- f_in_read fault ReadNalLength 4 ;;
   if Z.of_nat (length length_bytes) <? 4 then ret tt
   else
     nal_len <- lift (struct_unpack_uint 4 length_bytes) ;;
     if (nal_len >? MAX_NAL_LEN) || (nal_len =? 0) then ret tt
     else
       nal_data <- f_in_read fault ReadNalData nal_len ;;
       if Z.of_nat (length nal_data) <? nal_len then ret tt
       else
         f_out_write fault WriteNalStartCode START_CODE ;;;
         f_out_write fault WriteNalData nal_data ;;;
         extract_nals fault fuel).
Proof. reflexivity. Qed.

Lemma valid_nal_u32 p : valid_nal p -> 0 <= Z.of_nat (length p) < 2 ^ 32.
Proof. unfold valid_nal, MAX_NAL_LEN. lia. Qed.

Lemma avcc_record_length p :
  Z.of_nat (length (avcc_record p)) = 4 + Z.of_nat (length p).
Proof. unfold avcc_record. rewrite length_app, pack_I_length. lia. Qed.

(** One iteration of the extraction loop on a valid record: two reads and
    two writes. *)
Lemma extract_nals_record fuel p rest w :
  0 <= cursor w -> remaining w = avcc_record p ++ rest -> valid_nal p ->
  exists w',
    extract_nals no_faults (S fuel) w = extract_nals no_faults fuel w' /\
    advanced (4 + Z.of_nat (length p)) (unit_writes [p]) w w'.
Proof.
  intros Hc Hrem Hp.
  pose proof (valid_nal_u32 p Hp) as Hu. unfold valid_nal in Hp.
  unfold avcc_record in Hrem. rewrite <- app_assoc in Hrem.
  rewrite extract_nals_S. unfold bind at 1. rewrite read_no_faults, Hrem.
  rewrite take_app_exact by (now rewrite pack_I_length).
  rewrite pack_I_length. change (Z.of_nat 4 <? 4) with false. cbv iota beta.
  unfold bind at 1, lift, struct_unpack_uint.
  rewrite pack_I_length, Nat.eqb_refl, unpack_pack_I by assumption.
  replace (Z.of_nat (length p) >? MAX_NAL_LEN) with false by (symmetry; lia).
  replace (Z.of_nat (length p) =? 0) with false by (symmetry; lia).
  change (false || false) with false. cbv iota beta.
  unfold bind at 1. rewrite read_no_faults.
  rewrite (remaining_advance w 4 Hc), Hrem.
  rewrite skipn_app_exact by (now rewrite pack_I_length).
  rewrite take_app_exact by reflexivity.
  rewrite Z.ltb_irrefl. cbv iota.
  match goal with
  | |- context [bind (f_out_write _ _ _) _ ?w1] =>
      assert (H1 : advanced (4 + Z.of_nat (length p)) [] w w1)
        by (advanced_fields; repeat split; auto; lia);
      destruct (write_no_faults WriteNalStartCode START_CODE w1)
        as (w2 & E2 & H2)
  end.
  unfold bind at 1. rewrite E2.
  destruct (write_no_faults WriteNalData p w2) as (w3 & E3 & H3).
  unfold bind at 1. rewrite E3.
  exists w3. split; [reflexivity|].
  pose proof (advanced_trans _ _ _ _ _ _ _ H1
                (advanced_trans _ _ _ _ _ _ _ H2 H3)) as H.
  eapply advanced_moved; [exact H | lia].
Qed.

Lemma unit_writes_bytes ps : bytes_written (unit_writes ps) = annexb ps.
Proof.
  unfold bytes_written, unit_writes, annexb.
  induction ps as [|p ps IH]; [reflexivity|].
  cbn [flat_map app map snd concat]. rewrite IH.
  now rewrite <- app_assoc.
Qed.

(** The extraction loop over a run of valid records. *)
Lemma extract_nals_records ps : forall fuel rest w,
  Forall valid_nal ps -> 0 <= cursor w -> remaining w = avcc ps ++ rest ->
  exists w',
    extract_nals no_faults (length ps + fuel) w = extract_nals no_faults fuel w' /\
    advanced (Z.of_nat (length (avcc ps))) (unit_writes ps) w w'.
Proof.
  induction ps as [|p ps IH]; intros fuel rest w Hv Hc Hrem.
  - exists w. split; [reflexivity | apply advanced_refl].
  - inversion Hv as [|? ? Hp Hps]; subst.
    change (avcc (p :: ps)) with (avcc_record p ++ avcc ps) in *.
    rewrite <- app_assoc in Hrem.
    cbn [length Nat.add].
    destruct (extract_nals_record (length ps + fuel) p _ w Hc Hrem Hp)
      as (w1 & -> & H1).
    destruct (advanced_remaining _ _ _ _ _ _ H1
                (eq_sym (avcc_record_length p)) Hc Hrem) as [Hc1 Hrem1].
    destruct (IH fuel rest w1 Hps Hc1 Hrem1) as (w2 & -> & H2).
    exists w2. split; [reflexivity|].
    pose proof (advanced_trans _ _ _ _ _ _ _ H1 H2) as H.
    eapply advanced_moved; [exact H |].
    rewrite length_app, Nat2Z.inj_add, avcc_record_length. reflexivity.
Qed.

(** The extraction loop stops, keeping what was written. *)
Lemma extract_nals_stops fuel w :
  stop_reason (remaining w) -> 0 <= cursor w ->
  exists moved w',
    extract_nals no_faults (S fuel) w = (Ok tt, w') /\ advanced moved [] w w'.
Proof.
  intros Hstop Hc. rewrite extract_nals_S. unfold bind at 1.
  rewrite read_no_faults.
  destruct Hstop as [Hshort | lb tail Hrest Hlen Hbad | lb tail Hrest Hlen Hok Htr].
  - rewrite take_short by lia.
    replace (Z.of_nat (length (remaining w)) <? 4) with true by (symmetry; lia).
    do 2 eexists. split; [reflexivity|].
    advanced_fields. repeat split; auto.
  - rewrite Hrest, take_app_exact by (now rewrite Hlen).
    rewrite Hlen. change (Z.of_nat 4 <? 4) with false. cbv iota beta.
    unfold bind at 1, lift, struct_unpack_uint. rewrite Hlen, Nat.eqb_refl.
    replace ((be_uint lb >? MAX_NAL_LEN) || (be_uint lb =? 0)) with true.
    + do 2 eexists. split; [reflexivity|].
      advanced_fields. repeat split; auto.
    + symmetry. apply orb_true_iff. destruct Hbad; [right | left]; lia.
  - rewrite Hrest, take_app_exact by (now rewrite Hlen).
    rewrite Hlen. change (Z.of_nat 4 <? 4) with false. cbv iota beta.
    unfold bind at 1, lift, struct_unpack_uint. rewrite Hlen, Nat.eqb_refl.
    replace (be_uint lb >? MAX_NAL_LEN) with false by (symmetry; lia).
    replace (be_uint lb =? 0) with false by (symmetry; lia).
    change (false || false) with false. cbv iota beta.
    unfold bind at 1. rewrite read_no_faults.
    rewrite (remaining_advance w 4 Hc), Hrest.
    rewrite skipn_app_exact by (now rewrite Hlen).
    rewrite take_short by lia.
    replace (Z.of_nat (length tail) <? be_uint lb) with true by (symmetry; lia).
    do 2 eexists. split; [reflexivity|].
    advanced_fields. repeat split; auto.
    rewrite <- Z.add_assoc. reflexivity.
Qed.

(** ** Runs without I/O failures: the box scanner *)

Lemma scan_atoms_S fault fuel :
  scan_atoms fault (S fuel) =
  (header <- f_in_read fault ReadAtomHeader 8 ;;
   if Z.of_nat (length header) <? 8 then ret false
   else
     let '(atom_size, atom_type) := struct_unpack_I4s header in
     let atom_name := decode_ascii_ignore atom_type in
     if String.eqb atom_name "mdat" then
       f_in_tell fault TellMdat ;;;
       (if atom_size =? 1 then
          large_size <- f_in_read fault ReadMdatLargeSize 8 ;;
          lift (struct_unpack_uint 8 large_size)
        else ret atom_size) ;;;
       try_extraction (extraction_loop fault) ;;;
       ret true
     else if atom_size =? 1 then
       large_size <- f_in_read fault ReadSkipLargeSize 8 ;;
       atom_size' <- lift (struct_unpack_uint 8 large_size) ;;
       f_in_seek_cur fault SeekSkip (atom_size' - 16) ;;;
       scan_atoms fault fuel
     else if atom_size =? 0 then ret false
     else
       f_in_seek_cur fault SeekSkip (atom_size - 8) ;;;
       scan_atoms fault fuel).
Proof. reflexivity. Qed.

Lemma unpack_I4s_app a t :
  length a = 4%nat -> struct_unpack_I4s (a ++ t) = (be_uint a, t).
Proof.
  intros H. unfold struct_unpack_I4s.
  rewrite firstn_app, H, Nat.sub_diag, firstn_all2 by lia.
  rewrite skipn_app_exact by (now rewrite H).
  simpl. now rewrite app_nil_r.
Qed.

(** Reading an 8-byte box header [a ++ t] that is present in the file. *)
Lemma read_header a t rest w :
  length a = 4%nat -> length t = 4%nat -> remaining w = a ++ t ++ rest ->
  take 8 (remaining w) = a ++ t /\ Z.of_nat (length (a ++ t)) = 8.
Proof.
  intros Ha Ht ->. split.
  - rewrite app_assoc. apply take_app_exact. rewrite length_app. lia.
  - rewrite length_app. lia.
Qed.

Lemma encode_box_length b :
  skippable b -> Z.of_nat (length (encode_box b)) = box_size b.
Proof.
  intros (Ht & _ & _). unfold encode_box, box_size. destruct (box_large b);
    rewrite !length_app, ?pack_I_length, ?pack_Q_length, Ht; lia.
Qed.

Lemma remaining_length w : (length (remaining w) <= length (input_file w))%nat.
Proof.
  unfold remaining. rewrite drop_skipn, length_skipn. lia.
Qed.

(** Bytes that stand at the cursor lie within the file, hence below the
    largest position. *)
Lemma remaining_within a rest w :
  0 <= cursor w -> remaining w = a ++ rest -> (0 < length a)%nat ->
  cursor w + Z.of_nat (length a) <= max_position (src w).
Proof.
  intros Hc Hrem Ha. pose proof (input_fits w) as [Hfit _].
  assert (Hl : length (remaining w) = (length a + length rest)%nat)
    by (now rewrite Hrem, length_app).
  unfold remaining in Hl. rewrite drop_skipn, length_skipn in Hl. lia.
Qed.

(** The scanner steps over a complete non-payload box of either form. *)
Lemma scan_atoms_box fuel b rest w :
  skippable b -> 0 <= cursor w -> remaining w = encode_box b ++ rest ->
  exists w',
    scan_atoms no_faults (S fuel) w = scan_atoms no_faults fuel w' /\
    advanced (box_size b) [] w w'.
Proof.
  intros Hb Hc Hrem.
  pose proof (encode_box_length b Hb) as Hlen.
  assert (Hin : cursor w + box_size b <= max_position (src w)).
  { rewrite <- Hlen. apply (remaining_within _ rest); trivial.
    apply Nat2Z.inj_lt. rewrite Hlen. unfold box_size.
    destruct (box_large b); lia. }
  pose proof (input_fits w) as [_ Hmax].
  destruct Hb as (Ht & Hne & Hsz).
  pose proof (decode_not_mdat _ Ht Hne) as Hname.
  rewrite scan_atoms_S. unfold bind at 1. rewrite read_no_faults.
  unfold encode_box, box_size in *. destruct (box_large b) eqn:Hl.
  - (* extended form *)
    rewrite <- !app_assoc in Hrem.
    destruct (read_header (pack_I 1) (box_type b) _ w (pack_I_length 1) Ht Hrem)
      as [-> Hl8].
    rewrite Hl8. change (8 <? 8) with false. cbv iota beta.
    rewrite unpack_I4s_app by apply pack_I_length.
    rewrite unpack_pack_I by lia. cbv zeta. rewrite Hname.
    change (1 =? 1) with true. cbv iota beta.
    unfold bind at 1. rewrite read_no_faults.
    replace (cursor w + 8) with (cursor w + Z.of_nat 8) by reflexivity.
    rewrite (remaining_advance w 8 Hc), Hrem.
    rewrite app_assoc, skipn_app_exact
      by (rewrite length_app, pack_I_length, Ht; reflexivity).
    rewrite take_app_exact by (now rewrite pack_Q_length).
    unfold bind at 1, lift, struct_unpack_uint.
    rewrite pack_Q_length, Nat.eqb_refl, unpack_pack_Q by lia.
    unfold bind at 1.
    rewrite seek_no_faults
      by (unfold min_offset, max_offset in *; cbn [cursor src set_cursor tick]; lia).
    eexists. split; [reflexivity|].
    advanced_fields. repeat split; auto. lia.
  - (* normal form *)
    rewrite <- !app_assoc in Hrem.
    destruct (read_header (pack_I _) (box_type b) _ w (pack_I_length _) Ht Hrem)
      as [-> Hl8].
    rewrite Hl8. change (8 <? 8) with false. cbv iota beta.
    rewrite unpack_I4s_app by apply pack_I_length.
    rewrite unpack_pack_I by lia. cbv zeta. rewrite Hname.
    replace (8 + Z.of_nat (length (box_body b)) =? 1) with false by (symmetry; lia).
    replace (8 + Z.of_nat (length (box_body b)) =? 0) with false by (symmetry; lia).
    cbv iota beta.
    unfold bind at 1.
    rewrite seek_no_faults
      by (unfold min_offset, max_offset in *; cbn [cursor src set_cursor tick]; lia).
    eexists. split; [reflexivity|].
    advanced_fields. repeat split; auto. lia.
Qed.

Lemma scan_atoms_boxes bs : forall fuel rest w,
  Forall skippable bs -> 0 <= cursor w ->
  remaining w = encode_boxes bs ++ rest ->
  exists w',
    scan_atoms no_faults (length bs + fuel) w = scan_atoms no_faults fuel w' /\
    advanced (Z.of_nat (length (encode_boxes bs))) [] w w'.
Proof.
  induction bs as [|b bs IH]; intros fuel rest w Hv Hc Hrem.
  - exists w. split; [reflexivity | apply advanced_refl].
  - inversion Hv as [|? ? Hb Hbs]; subst.
    change (encode_boxes (b :: bs)) with (encode_box b ++ encode_boxes bs) in *.
    rewrite <- app_assoc in Hrem.
    cbn [length Nat.add].
    destruct (scan_atoms_box (length bs + fuel) b _ w Hb Hc Hrem)
      as (w1 & -> & H1).
    destruct (advanced_remaining _ _ _ _ _ _ H1
                (eq_sym (encode_box_length b Hb)) Hc Hrem) as [Hc1 Hrem1].
    destruct (IH fuel rest w1 Hbs Hc1 Hrem1) as (w2 & -> & H2).
    exists w2. split; [reflexivity|].
    pose proof (advanced_trans _ _ _ _ _ _ _ H1 H2) as H.
    eapply advanced_moved; [exact H |].
    rewrite length_app, Nat2Z.inj_add, (encode_box_length b Hb). reflexivity.
Qed.

(** The scanner at the header of the payload box: the extended size is
    read when the size field is 1, and the extraction loop starts. *)
Lemma scan_atoms_mdat fuel h rest w :
  mdat_header_ok h -> 0 <= cursor w ->
  remaining w = encode_mdat_header h ++ rest ->
  exists w',
    scan_atoms no_faults (S fuel) w =
      (try_extraction (extraction_loop no_faults) ;;; ret true) w' /\
    advanced (Z.of_nat (length (encode_mdat_header h))) [] w w'.
Proof.
  intros Hok Hc Hrem.
  rewrite scan_atoms_S. unfold bind at 1. rewrite read_no_faults.
  assert (Hm : String.eqb (decode_ascii_ignore mdat_tag) "mdat" = true)
    by reflexivity.
  destruct h as [atom_size | large_size]; cbn [encode_mdat_header] in *;
    cbn [mdat_header_ok] in Hok.
  - destruct (read_header (pack_I atom_size) mdat_tag rest w
                (pack_I_length _) eq_refl) as [-> Hl8];
      [now rewrite <- app_assoc in Hrem |].
    rewrite Hl8. change (8 <? 8) with false. cbv iota beta.
    rewrite unpack_I4s_app by apply pack_I_length.
    rewrite unpack_pack_I by lia. cbv zeta. rewrite Hm.
    replace (atom_size =? 1) with false by (symmetry; lia).
    cbv iota beta. unfold bind at 1. rewrite tell_no_faults.
    unfold bind at 1, ret at 1.
    eexists. split; [reflexivity|].
    advanced_fields. repeat split; auto.
  - destruct (read_header (pack_I 1) mdat_tag (pack_Q large_size ++ rest) w
                (pack_I_length _) eq_refl) as [-> Hl8];
      [now rewrite <- !app_assoc in Hrem |].
    rewrite Hl8. change (8 <? 8) with false. cbv iota beta.
    rewrite unpack_I4s_app by apply pack_I_length.
    rewrite unpack_pack_I by lia. cbv zeta. rewrite Hm.
    change (1 =? 1) with true. cbv iota beta.
    unfold bind at 1. rewrite tell_no_faults.
    unfold bind at 1. unfold bind at 1. rewrite read_no_faults.
    assert (Hr : remaining (tick (set_cursor (cursor w + 8) (tick w)))
                 = pack_Q large_size ++ rest).
    { change (remaining (tick (set_cursor (cursor w + 8) (tick w))))
        with (remaining (set_cursor (cursor w + Z.of_nat 8) (tick w))).
      rewrite (remaining_advance w 8 Hc), Hrem.
      rewrite <- !app_assoc, app_assoc.
      apply skipn_app_exact. rewrite length_app, pack_I_length. reflexivity. }
    rewrite Hr, take_app_exact by (now rewrite pack_Q_length).
    unfold lift, struct_unpack_uint. rewrite pack_Q_length, Nat.eqb_refl.
    eexists. split; [reflexivity|].
    rewrite !length_app, pack_I_length, pack_Q_length.
    advanced_fields. repeat split; auto.
    change (Z.of_nat (4 + (length mdat_tag + 8))) with 16. lia.
Qed.

Lemma avcc_length ps : (length ps <= length (avcc ps))%nat.
Proof.
  induction ps as [|p ps IH]; [simpl; lia|].
  change (avcc (p :: ps)) with (avcc_record p ++ avcc ps).
  unfold avcc_record. rewrite !length_app, pack_I_length.
  cbn [length]. lia.
Qed.

Lemma nal_units_of_log (l : list (site * list byte)) ps :
  Forall (fun e => is_nal_data (fst e) = false) l ->
  map snd (filter (fun e => is_nal_data (fst e)) (l ++ unit_writes ps)) = ps.
Proof.
  intros Hl. rewrite filter_app, map_app.
  replace (filter (fun e => is_nal_data (fst e)) l) with (@nil (site * list byte)).
  - simpl. induction ps as [|p ps IH]; simpl; [reflexivity | now rewrite IH].
  - symmetry. induction Hl as [|e l He _ IH]; simpl; [reflexivity|].
    now rewrite He.
Qed.

(** The extraction loop on a run of valid records followed by a stop. *)
Lemma extraction_loop_run ps rest w :
  Forall valid_nal ps -> stop_reason rest -> 0 <= cursor w ->
  remaining w = avcc ps ++ rest ->
  exists moved w',
    extraction_loop no_faults w = (Ok tt, w') /\
    advanced moved (unit_writes ps) w w'.
Proof.
  intros Hv Hstop Hc Hrem. unfold extraction_loop.
  assert (Hfuel : (length ps <= length (input_file w))%nat).
  { pose proof (remaining_length w) as H. rewrite Hrem, length_app in H.
    pose proof (avcc_length ps). lia. }
  replace (S (length (input_file w)))
    with (length ps + S (length (input_file w) - length ps))%nat by lia.
  destruct (extract_nals_records ps (S (length (input_file w) - length ps))
              rest w Hv Hc Hrem) as (w1 & -> & H1).
  destruct (advanced_remaining _ _ _ _ _ _ H1 eq_refl Hc Hrem) as [Hc1 Hrem1].
  destruct (extract_nals_stops (length (input_file w) - length ps) w1)
    as (moved & w2 & E2 & H2); [now rewrite Hrem1 | assumption |].
  exists (Z.of_nat (length (avcc ps)) + moved), w2. split; [exact E2|].
  pose proof (advanced_trans _ _ _ _ _ _ _ H1 H2) as H.
  now rewrite app_nil_r in H.
Qed.

(** ** Runs without I/O failures: the with-block and [recover_file] *)

Lemma prelude_no_faults w :
  (mkstemp no_faults ;;; os_close no_faults) (begin_run w) = (Ok tt, started w).
Proof. reflexivity. Qed.

Lemma remove_no_faults s w : remove_temp no_faults s w = (Ok tt, removed w).
Proof. unfold remove_temp, removed. now destruct (temp_file w). Qed.

Lemma finally_no_faults r muxed w :
  finally no_faults r muxed w = mkOutcome r muxed (removed w).
Proof. unfold finally. now rewrite remove_no_faults. Qed.

Lemma removed_fields w :
  temp_file (removed w) = None /\ src (removed w) = src w /\
  write_log (removed w) = write_log w /\ failures (removed w) = failures w /\
  buffer_size (removed w) = buffer_size w.
Proof. unfold removed. destruct (temp_file w) eqn:E; cbn; auto. Qed.

(** Closing [f_out] without failure: what was pending is in the file. *)
Lemma close_no_faults w :
  temp_file w <> None ->
  exists w', f_out_close no_faults w = (Ok tt, w') /\
             advanced 0 [] w w' /\ temp_file w' = Some (written w).
Proof.
  intros Ht. unfold f_out_close, f_out_flush.
  destruct (out_buffer w) as [|x b] eqn:Eb.
  - exists w. split; [reflexivity|]. split; [apply advanced_refl|].
    unfold written, temp_bytes. rewrite Eb, app_nil_r.
    destruct (temp_file w); [reflexivity | contradiction].
  - eexists. split; [reflexivity|]. split; [| reflexivity].
    do 2 advanced_fields. repeat split; auto; [lia | discriminate].
Qed.

Lemma with_exit_no_faults {A} (body : M A) w r w1 :
  body w = (r, w1) -> r <> OutOfFuel -> temp_file w1 <> None ->
  exists w2, with_exit no_faults body w = (r, w2) /\
             advanced 0 [] w1 w2 /\ temp_file w2 = Some (written w1).
Proof.
  intros E Hr Ht. destruct (close_no_faults w1 Ht) as (w2 & Ec & Ha & Hw).
  exists w2. unfold with_exit. rewrite E, Ec.
  destruct r; [auto | auto | contradiction].
Qed.

(** Lines 56-59 without failure. *)
Lemma header_writes_no_faults w :
  exists w',
    advanced 0 header_writes w w' /\
    forall (k : M bool),
      (f_out_write no_faults WriteHeaders START_CODE ;;;
       f_out_write no_faults WriteHeaders SPS ;;;
       f_out_write no_faults WriteHeaders START_CODE ;;;
       f_out_write no_faults WriteHeaders PPS ;;; k) w = k w'.
Proof.
  destruct (write_no_faults WriteHeaders START_CODE w) as (w1 & E1 & H1).
  destruct (write_no_faults WriteHeaders SPS w1) as (w2 & E2 & H2).
  destruct (write_no_faults WriteHeaders START_CODE w2) as (w3 & E3 & H3).
  destruct (write_no_faults WriteHeaders PPS w3) as (w4 & E4 & H4).
  exists w4. split.
  - exact (advanced_trans _ _ _ _ _ _ _ H1
             (advanced_trans _ _ _ _ _ _ _ H2
                (advanced_trans _ _ _ _ _ _ _ H3 H4))).
  - intros k. unfold bind. now rewrite E1, E2, E3, E4.
Qed.

(** The world in which the body of the with-block starts. *)
Lemma with_files_opens fuel w :
  with_files no_faults fuel w =
  with_exit no_faults
    (f_out_write no_faults WriteHeaders START_CODE ;;;
     f_out_write no_faults WriteHeaders SPS ;;;
     f_out_write no_faults WriteHeaders START_CODE ;;;
     f_out_write no_faults WriteHeaders PPS ;;;
     scan_atoms no_faults fuel)
    (set_buffer [] (set_temp (Some []) (tick (set_cursor 0 (tick w))))).
Proof. reflexivity. Qed.

(** The scan starts at offset 0 with the parameter sets written. *)
Lemma with_files_scan fuel w :
  write_log w = [] ->
  exists w0,
    with_files no_faults fuel w = with_exit no_faults (fun _ => scan_atoms no_faults fuel w0) w /\
    src w0 = src w /\ buffer_size w0 = buffer_size w /\ cursor w0 = 0 /\
    written w0 = parameter_sets /\ write_log w0 = header_writes /\
    failures w0 = failures w /\ temp_file w0 <> None.
Proof.
  intros Hlog. rewrite with_files_opens.
  destruct (header_writes_no_faults
              (set_buffer [] (set_temp (Some []) (tick (set_cursor 0 (tick w))))))
    as (w0 & (Hs & Hb & Hc & Hw & Hl & Hf & Ht) & Hk).
  exists w0. split.
  - unfold with_exit. now rewrite Hk.
  - rewrite Hs, Hb, Hc, Hw, Hl, Hf. cbn. rewrite Hlog.
    repeat split; auto. apply Ht. discriminate.
Qed.

(** The with-block on: complete non-payload boxes, the payload box header,
    a run of valid records, then bytes on which the extraction stops. *)
Lemma with_files_reframes fuel w boxes h ps rest :
  Forall skippable boxes -> mdat_header_ok h ->
  Forall valid_nal ps -> stop_reason rest ->
  input_file w = encode_boxes boxes ++ encode_mdat_header h ++ avcc ps ++ rest ->
  (length boxes < fuel)%nat ->
  write_log w = [] ->
  exists w',
    with_files no_faults fuel w = (Ok true, w') /\
    temp_file w' = Some (annexb (SPS :: PPS :: ps)) /\
    nal_units w' = ps /\
    src w' = src w /\
    failures w' = failures w.
Proof.
  intros Hb Hh Hv Hstop Hin Hfuel Hlog.
  destruct (with_files_scan fuel w Hlog)
    as (w0 & -> & Hs0 & _ & Hc0 & Hw0 & Hl0 & Hf0 & Ht0).
  assert (Hrem0 : remaining w0 =
                  encode_boxes boxes ++ encode_mdat_header h ++ avcc ps ++ rest).
  { unfold remaining. rewrite Hs0, Hc0, <- Hin. now destruct (input_file w). }
  replace fuel with (length boxes + S (fuel - S (length boxes)))%nat by lia.
  destruct (scan_atoms_boxes boxes (S (fuel - S (length boxes))) _ w0
              Hb ltac:(lia) Hrem0) as (w1 & E1 & H1).
  destruct (advanced_remaining _ _ _ _ _ _ H1 eq_refl ltac:(lia) Hrem0)
    as [Hc1 Hrem1].
  destruct (scan_atoms_mdat (fuel - S (length boxes)) h _ w1 Hh Hc1 Hrem1)
    as (w2 & E2 & H2).
  destruct (advanced_remaining _ _ _ _ _ _ H2 eq_refl Hc1 Hrem1)
    as [Hc2 Hrem2].
  destruct (extraction_loop_run ps rest w2 Hv Hstop Hc2 Hrem2)
    as (moved & w3 & E3 & H3).
  pose proof (advanced_trans _ _ _ _ _ _ _ H1
                (advanced_trans _ _ _ _ _ _ _ H2 H3))
    as (Hs & _ & _ & Hw & Hl & Hf & Ht).
  cbn [app] in Hw, Hl.
  destruct (with_exit_no_faults
              (fun _ => scan_atoms no_faults
                          (length boxes + S (fuel - S (length boxes))) w0)
              w (Ok true) w3) as (w4 & E4 & (Hs4 & _ & _ & _ & Hl4 & Hf4 & _) & Ht4).
  { rewrite E1, E2. unfold bind at 1, try_extraction. now rewrite E3. }
  { discriminate. }
  { auto. }
  exists w4. split; [exact E4|].
  rewrite Ht4, Hw, Hw0, unit_writes_bytes, Hs4, Hs, Hs0, Hf4, Hf, Hf0.
  unfold nal_units. rewrite Hl4, app_nil_r, Hl, Hl0.
  repeat split. apply nal_units_of_log.
  unfold header_writes. repeat constructor.
Qed.

(** [recover_file] on such an input: the Annex B stream is handed to
    ffmpeg, whose return code decides the result; the temporary file is
    removed and the input is untouched. *)
Lemma recover_file_reframes ffmpeg fuel w boxes h ps rest :
  Forall skippable boxes -> mdat_header_ok h ->
  Forall valid_nal ps -> stop_reason rest ->
  input_file w = encode_boxes boxes ++ encode_mdat_header h ++ avcc ps ++ rest ->
  (length boxes < fuel)%nat ->
  let o := recover_file no_faults ffmpeg fuel w in
  let stream := annexb (SPS :: PPS :: ps) in
  mux_input o = Some (Some stream) /\
  returned o = Ok (mux_status (ffmpeg (Some stream))) /\
  nal_units (final o) = ps /\
  temp_file (final o) = None /\
  input_file (final o) = input_file w.
Proof.
  intros Hb Hh Hv Hstop Hin Hfuel.
  destruct (with_files_reframes fuel (started w) boxes h ps rest
              Hb Hh Hv Hstop Hin Hfuel eq_refl)
    as (w' & Hrun & Ht & Hn & Hs & _).
  cbv zeta. unfold recover_file. rewrite prelude_no_faults, Hrun. cbn [negb].
  rewrite Ht. destruct (removed_fields w') as (Hr1 & Hr2 & Hr3 & _).
  destruct (ffmpeg _); rewrite finally_no_faults;
    cbn [mux_input returned final mux_status];
    unfold nal_units in *; rewrite Hr1, Hr2, Hr3, Hs, Hn; auto.
Qed.

Lemma sample_boxes_skippable : Forall skippable [free_box].
Proof.
  repeat constructor; discriminate.
Qed.

Lemma sample_nals_valid : Forall valid_nal [nal5; nal7].
Proof.
  repeat constructor; unfold valid_nal, MAX_NAL_LEN; cbn; lia.
Qed.

Lemma sample_mdat_header_ok : mdat_header_ok (MdatNormal 0).
Proof. cbn. lia. Qed.

(* ------------------------------------------------------------------ *)
(** ** C1: N records give N+2 units *)

(** C1.  On an input made of complete non-payload boxes, the header of the
    mdat box and N valid 4-byte big-endian length-prefixed records up to
    the end of the file, the stream that [recover_file] hands to the mux
    step is the Annex B framing of N+2 units, each preceded by the start
    code 00 00 00 01: the SPS, the PPS, then the N payloads in input
    order.  Any number of loop iterations above the number of preceding
    boxes suffices. *)
Theorem C1_reframes_every_record ffmpeg fuel w boxes h ps :
  Forall skippable boxes -> mdat_header_ok h -> Forall valid_nal ps ->
  input_file w = encode_boxes boxes ++ encode_mdat_header h ++ avcc ps ->
  (length boxes < fuel)%nat ->
  let o := recover_file no_faults ffmpeg fuel w in
  mux_input o = Some (Some (annexb (SPS :: PPS :: ps))) /\
  length (SPS :: PPS :: ps) = (length ps + 2)%nat /\
  nal_units (final o) = ps /\
  START_CODE = [x00; x00; x00; x01].
Proof.
  intros Hb Hh Hv Hin Hfuel.
  assert (Hstop : stop_reason []) by (apply CleanEnd; cbn; lia).
  rewrite <- (app_nil_r (avcc ps)) in Hin.
  destruct (recover_file_reframes ffmpeg fuel w boxes h ps [] Hb Hh Hv Hstop
              Hin Hfuel) as (Hm & _ & Hn & _).
  cbv zeta. repeat split; try assumption. cbn [length]. lia.
Qed.

Lemma C1_witness :
  let o := recover_file no_faults ffmpeg_ok 2 (disk scenario_input) in
  mux_input o = Some (Some (annexb [SPS; PPS; nal5; nal7])) /\
  length [SPS; PPS; nal5; nal7] = 4%nat /\
  nal_units (final o) = [nal5; nal7] /\
  START_CODE = [x00; x00; x00; x01].
Proof.
  apply (C1_reframes_every_record ffmpeg_ok 2 (disk scenario_input)
           [free_box] (MdatNormal 0) [nal5; nal7]).
  - exact sample_boxes_skippable.
  - exact sample_mdat_header_ok.
  - exact sample_nals_valid.
  - reflexivity.
  - cbn. lia.
Defined.

(* ------------------------------------------------------------------ *)
(** ** C2: a corrupt length stops the extraction, not the run *)

(** C2.  When, after K valid records, the next 4-byte length field is 0 or
    greater than 20,000,000, the extraction stops there: the stream holds
    the two parameter units and exactly the K recovered units, and
    [recover_file] still runs the mux step on it and returns what the mux
    step's return code says. *)
Theorem C2_corrupt_length_keeps_partial ffmpeg fuel w boxes h ps length_bytes tail :
  Forall skippable boxes -> mdat_header_ok h -> Forall valid_nal ps ->
  length length_bytes = 4%nat ->
  be_uint length_bytes = 0 \/ 20000000 < be_uint length_bytes ->
  input_file w =
    encode_boxes boxes ++ encode_mdat_header h ++ avcc ps ++
    length_bytes ++ tail ->
  (length boxes < fuel)%nat ->
  let o := recover_file no_faults ffmpeg fuel w in
  let stream := annexb (SPS :: PPS :: ps) in
  mux_input o = Some (Some stream) /\
  returned o = Ok (mux_status (ffmpeg (Some stream))) /\
  nal_units (final o) = ps.
Proof.
  intros Hb Hh Hv Hl Hbad Hin Hfuel.
  assert (Hstop : stop_reason (length_bytes ++ tail))
    by (now apply (CorruptLength _ length_bytes tail)).
  destruct (recover_file_reframes ffmpeg fuel w boxes h ps _ Hb Hh Hv Hstop
              Hin Hfuel) as (Hm & Hr & Hn & _).
  cbv zeta. auto.
Qed.

Lemma C2_witness :
  let o := recover_file no_faults ffmpeg_ok 2 (disk corrupt_input) in
  let stream := annexb [SPS; PPS; nal5] in
  mux_input o = Some (Some stream) /\
  returned o = Ok (mux_status (ffmpeg_ok (Some stream))) /\
  nal_units (final o) = [nal5].
Proof.
  apply (C2_corrupt_length_keeps_partial ffmpeg_ok 2 (disk corrupt_input)
           [free_box] (MdatNormal 0) [nal5] [x00; x00; x00; x00] nal7).
  - exact sample_boxes_skippable.
  - exact sample_mdat_header_ok.
  - repeat constructor; unfold valid_nal, MAX_NAL_LEN; cbn; lia.
  - reflexivity.
  - left. reflexivity.
  - reflexivity.
  - cbn. lia.
Defined.

(* ------------------------------------------------------------------ *)
(** ** C3: a truncated last unit is dropped whole *)

(** C3.  When the last length prefix declares more payload bytes than are
    left in the file, no byte of that unit reaches the output: the stream
    is exactly the two parameter units and the units completed before,
    and the extraction stops (the only payload writes made are those
    units). *)
Theorem C3_truncated_unit_dropped ffmpeg fuel w boxes h ps length_bytes tail :
  Forall skippable boxes -> mdat_header_ok h -> Forall valid_nal ps ->
  length length_bytes = 4%nat ->
  Z.of_nat (length tail) < be_uint length_bytes ->
  input_file w =
    encode_boxes boxes ++ encode_mdat_header h ++ avcc ps ++
    length_bytes ++ tail ->
  (length boxes < fuel)%nat ->
  let o := recover_file no_faults ffmpeg fuel w in
  mux_input o = Some (Some (annexb (SPS :: PPS :: ps))) /\
  nal_units (final o) = ps.
Proof.
  intros Hb Hh Hv Hl Hshort Hin Hfuel.
  assert (Hstop : stop_reason (length_bytes ++ tail)).
  { destruct (Z_lt_le_dec MAX_NAL_LEN (be_uint length_bytes)).
    - apply (CorruptLength _ length_bytes tail); auto.
    - apply (TruncatedUnit _ length_bytes tail); auto. lia. }
  destruct (recover_file_reframes ffmpeg fuel w boxes h ps _ Hb Hh Hv Hstop
              Hin Hfuel) as (Hm & _ & Hn & _).
  cbv zeta. auto.
Qed.

Lemma C3_witness :
  let o := recover_file no_faults ffmpeg_ok 2 (disk truncated_input) in
  mux_input o = Some (Some (annexb [SPS; PPS; nal5])) /\
  nal_units (final o) = [nal5].
Proof.
  apply (C3_truncated_unit_dropped ffmpeg_ok 2 (disk truncated_input)
           [free_box] (MdatNormal 0) [nal5] (pack_I 7) [x41; x9a; x24]).
  - exact sample_boxes_skippable.
  - exact sample_mdat_header_ok.
  - repeat constructor; unfold valid_nal, MAX_NAL_LEN; cbn; lia.
  - reflexivity.
  - vm_compute. reflexivity.
  - reflexivity.
  - cbn. lia.
Defined.

(* ------------------------------------------------------------------ *)
(** ** C4: no payload box *)

(** What holds: when the scan runs through complete non-payload boxes and
    then meets fewer than 8 bytes or a non-payload header with size field
    0, no mdat box was found; [recover_file] returns False, ffmpeg is not
    run and the temporary file is gone. *)
Lemma recover_file_no_payload ffmpeg fuel w boxes tail :
  Forall skippable boxes -> scan_end tail ->
  input_file w = encode_boxes boxes ++ tail ->
  (length boxes < fuel)%nat ->
  let o := recover_file no_faults ffmpeg fuel w in
  returned o = Ok false /\ mux_input o = None /\ temp_file (final o) = None.
Proof.
  intros Hb Ht Hin Hfuel. cbv zeta. unfold recover_file.
  rewrite prelude_no_faults.
  destruct (with_files_scan fuel (started w) eq_refl)
    as (w0 & -> & Hs0 & _ & Hc0 & _ & _ & _ & Ht0).
  assert (Hrem0 : remaining w0 = encode_boxes boxes ++ tail).
  { unfold remaining. rewrite Hs0, Hc0. cbn [src started].
    rewrite <- Hin. now destruct (input_file w). }
  replace fuel with (length boxes + S (fuel - S (length boxes)))%nat by lia.
  destruct (scan_atoms_boxes boxes (S (fuel - S (length boxes))) _ w0
              Hb ltac:(lia) Hrem0) as (w1 & E1 & H1).
  destruct (advanced_remaining _ _ _ _ _ _ H1 eq_refl ltac:(lia) Hrem0)
    as [Hc1 Hrem1].
  assert (Hrun : exists moved w2,
             scan_atoms no_faults (S (fuel - S (length boxes))) w1 = (Ok false, w2)
             /\ advanced moved [] w1 w2).
  { rewrite scan_atoms_S. unfold bind at 1. rewrite read_no_faults.
    destruct Ht as [Hshort | size_bytes tag tail' Htail Hs Htag Hne Hzero].
    - rewrite Hrem1, take_short by lia.
      replace (Z.of_nat (length tail) <? 8) with true by (symmetry; lia).
      do 2 eexists. split; [reflexivity|].
      advanced_fields. repeat split; auto.
    - rewrite Htail in Hrem1.
      destruct (read_header size_bytes tag tail' _ Hs Htag Hrem1) as [-> Hl8].
      rewrite Hl8. change (8 <? 8) with false. cbv iota beta.
      rewrite unpack_I4s_app by assumption. cbv zeta.
      rewrite (decode_not_mdat _ Htag Hne), Hzero.
      do 2 eexists. split; [reflexivity|].
      advanced_fields. repeat split; auto. }
  destruct Hrun as (moved & w2 & E2 & H2).
  pose proof (advanced_trans _ _ _ _ _ _ _ H1 H2) as (_ & _ & _ & _ & _ & _ & Ht2).
  destruct (with_exit_no_faults
              (fun _ => scan_atoms no_faults
                          (length boxes + S (fuel - S (length boxes))) w0)
              (started w) (Ok false) w2) as (w3 & -> & _ & _);
    [now rewrite E1, E2 | discriminate | auto |].
  cbn [negb]. rewrite remove_no_faults, finally_no_faults. cbn [snd].
  cbn [returned mux_input final]. repeat split.
  apply removed_fields.
Qed.

(** C4 (the code departs from it).  On the input 00 00 00 01 'free', which
    holds no mdat box, the read of the extended size returns no bytes and
    [struct.unpack] raises [struct.error]; the [except] clause of
    [recover_file] does not list it, so the exception leaves the function
    instead of False being returned.  No mux is run and the [finally]
    clause still removes the temporary file. *)
Theorem C4_cut_large_box_raises ffmpeg fuel :
  let o := recover_file no_faults ffmpeg (S fuel) (disk cut_large_box_input) in
  returned o = Raise StructError /\ mux_input o = None /\
  temp_file (final o) = None.
Proof. cbv zeta. repeat split. Qed.

(* ------------------------------------------------------------------ *)
(** ** C10: the box-scanning loop *)

Lemma scan_zero_large_size_loops fuel : forall t b c n f l,
  let r := scan_atoms no_faults fuel
             (mkWorld (store zero_large_size_input) t DEFAULT_BUFFER_SIZE b
                      0 c n f l) in
  fst r = OutOfFuel /\ cursor (snd r) = 0 /\
  clock (snd r) = (3 * fuel + c)%nat.
Proof.
  induction fuel as [|fuel IH]; intros t b c n f l.
  - cbn. auto.
  - cbv zeta. destruct (IH t b (S (S (S c))) n f l) as (H1 & H2 & H3).
    change (scan_atoms no_faults (S fuel)
              (mkWorld (store zero_large_size_input) t DEFAULT_BUFFER_SIZE b
                       0 c n f l))
      with (scan_atoms no_faults fuel
              (mkWorld (store zero_large_size_input) t DEFAULT_BUFFER_SIZE b
                       0 (S (S (S c))) n f l)).
    repeat split; try assumption. rewrite H3. lia.
Qed.

(** With the default buffer the parameter sets stay in the buffer: the
    scan starts after two opens and four write calls. *)
Lemma with_files_default_buffer fuel input :
  with_files no_faults fuel (started (disk input)) =
  with_exit no_faults (fun _ => scan_atoms no_faults fuel (after_headers (disk input)))
            (started (disk input)).
Proof. reflexivity. Qed.

(** C10 (the code departs from it).  On a non-payload box with size field
    1 and extended size 0 the scanner reads 16 bytes and seeks by
    0 - 16: the cursor is back at the start of the same box.  Whatever the
    number of iterations allowed, the loop is still running, the cursor is
    at offset 0 and three more I/O operations were made per iteration. *)
Theorem C10_zero_large_size_never_terminates ffmpeg fuel :
  let o := recover_file no_faults ffmpeg fuel (disk zero_large_size_input) in
  returned o = OutOfFuel /\ cursor (final o) = 0 /\
  clock (final o) = (3 * fuel + 6)%nat.
Proof.
  cbv zeta. unfold recover_file.
  rewrite prelude_no_faults, with_files_default_buffer.
  pose proof (scan_zero_large_size_loops fuel (Some []) parameter_sets 6%nat
                2%nat [] header_writes) as H.
  cbv zeta in H.
  change (mkWorld (store zero_large_size_input) _ _ _ 0 6 2 [] _)
    with (after_headers (disk zero_large_size_input)) in H.
  unfold with_exit.
  destruct (scan_atoms no_faults fuel (after_headers (disk zero_large_size_input)))
    as [r w1].
  cbn [fst snd] in H. destruct H as (-> & H2 & H3). cbn. auto.
Qed.

(* ------------------------------------------------------------------ *)
(** ** Runs with any pattern of I/O failures *)

Lemma io_inv fault {A} s (op : M A) w r w' :
  io fault s op w = (r, w') ->
  (fault (ops w) = true /\ r = Raise OSError /\ w' = note_failure s (tick w)) \/
  (fault (ops w) = false /\ op (tick w) = (r, w')).
Proof.
  unfold io. destruct (fault (ops w)); intros H.
  - left. inversion H. auto.
  - right. auto.
Qed.

Lemma read_inv fault s n w r w' :
  f_in_read fault s n w = (r, w') ->
  io_failed fault s w r w' \/
  (r = Ok (take n (remaining w)) /\
   w' = set_cursor (cursor w + Z.of_nat (length (take n (remaining w)))) (tick w)).
Proof.
  intros H. apply io_inv in H. destruct H as [(? & ? & ?) | (_ & H)].
  - left. now constructor.
  - right. inversion H. auto.
Qed.

Lemma tell_inv fault s w r w' :
  f_in_tell fault s w = (r, w') ->
  io_failed fault s w r w' \/ (r = Ok (cursor w) /\ w' = tick w).
Proof.
  intros H. apply io_inv in H. destruct H as [(? & ? & ?) | (_ & H)].
  - left. now constructor.
  - right. inversion H. auto.
Qed.

Lemma seek_inv fault s offset w r w' :
  f_in_seek_cur fault s offset w = (r, w') ->
  ((offset < min_offset \/ max_offset < offset) /\
   r = Raise ValueError /\ w' = w) \/
  io_failed fault s w r w' \/
  ((cursor w + offset < 0 \/ max_position (src w) < cursor w + offset) /\
   r = Raise OSError /\ w' = note_failure s (tick w)) \/
  (r = Ok tt /\ min_offset <= offset <= max_offset /\
   0 <= cursor w + offset <= max_position (src w) /\
   w' = set_cursor (cursor w + offset) (tick w)).
Proof.
  unfold f_in_seek_cur. intros H.
  destruct ((offset <? min_offset) || (max_offset <? offset)) eqn:Eo.
  - left. apply orb_true_iff in Eo. inversion H.
    split; [| auto]. destruct Eo as [E | E]; apply Z.ltb_lt in E; auto.
  - right. apply orb_false_iff in Eo. destruct Eo as [E1 E2].
    apply Z.ltb_ge in E1, E2.
    apply io_inv in H. destruct H as [(? & ? & ?) | (_ & H)].
    + left. now constructor.
    + right. cbn [cursor src tick] in H.
      destruct ((cursor w + offset <? 0) ||
                (max_position (src w) <? cursor w + offset)) eqn:Et.
      * left. apply orb_true_iff in Et. inversion H.
        split; [| auto]. destruct Et as [E | E]; apply Z.ltb_lt in E; auto.
      * right. apply orb_false_iff in Et. destruct Et as [E3 E4].
        apply Z.ltb_ge in E3, E4. inversion H. repeat split; auto.
Qed.

Ltac world_shape :=
  unfold flush_out;
  unfold log_write, set_buffer, set_temp, tick, note_failure;
  cbn [src temp_file buffer_size out_buffer cursor clock sys_calls failures
       write_log].

Lemma write_inv fault s data w r w' :
  f_out_write fault s data w = (r, w') -> out_step fault s data w r w'.
Proof.
  unfold f_out_write.
  destruct (Z.of_nat (length data) <=? _).
  - intros H. inversion H; subst. world_shape. apply OutDone.
    + unfold written, temp_bytes. now rewrite app_assoc.
    + auto.
  - unfold bind, f_out_flush.
    destruct (out_buffer w) as [|x b] eqn:Eb.
    + cbn [buffer_size]. destruct (buffer_size w <? _).
      * intros H. apply io_inv in H. destruct H as [(Hf & -> & ->) | (_ & H)].
        -- world_shape. apply (OutFailed _ _ _ _ _ _ _ _ Hf); [| auto].
           unfold written, temp_bytes. now rewrite Eb.
        -- inversion H; subst. world_shape. apply OutDone; [| discriminate].
           unfold written, temp_bytes, bytes_of. now rewrite Eb, !app_nil_r.
      * intros H. inversion H; subst. world_shape. apply OutDone; [| auto].
        unfold written, temp_bytes. now rewrite Eb, app_nil_r.
    + destruct (io fault s (fun w1 => (Ok tt, flush_out w1)) w)
        as [r1 w1] eqn:E1.
      apply io_inv in E1. destruct E1 as [(Hf & -> & ->) | (_ & E1)].
      * intros H. inversion H; subst. world_shape.
        apply (OutFailed _ _ _ _ _ _ _ _ Hf); [| auto].
        unfold written, temp_bytes. now rewrite Eb.
      * inversion E1; subst. cbn [buffer_size flush_out set_buffer set_temp tick].
        destruct (buffer_size w <? _).
        -- intros H. apply io_inv in H.
           destruct H as [(Hf & -> & ->) | (_ & H)].
           ++ world_shape.
              apply (OutFailed _ _ _ _ _ _ _ _ Hf); [| discriminate].
              unfold written, temp_bytes. cbn [temp_file out_buffer bytes_of].
              now rewrite app_nil_r.
           ++ inversion H; subst. world_shape. unfold temp_bytes.
              cbn [temp_file bytes_of].
              apply OutDone; [| discriminate].
              unfold written, temp_bytes. cbn [temp_file out_buffer bytes_of].
              now rewrite app_nil_r.
        -- intros H. inversion H; subst. world_shape.
           apply OutDone; [| discriminate].
           unfold written, temp_bytes. cbn [temp_file out_buffer bytes_of].
           reflexivity.
Qed.

Lemma close_inv fault w r w' :
  f_out_close fault w = (r, w') ->
  (r = Ok tt /\ out_buffer w = [] /\ w' = w) \/
  (r = Ok tt /\ w' = flush_out (tick w)) \/
  io_failed fault CloseTemp w r w'.
Proof.
  unfold f_out_close, f_out_flush. destruct (out_buffer w) eqn:Eb; intros H.
  - left. inversion H. auto.
  - right. apply io_inv in H. destruct H as [(? & ? & ?) | (_ & H)].
    + right. now constructor.
    + left. inversion H. auto.
Qed.

Lemma open_input_inv fault w r w' :
  open_input fault w = (r, w') ->
  io_failed fault OpenInput w r w' \/ (r = Ok tt /\ w' = set_cursor 0 (tick w)).
Proof.
  intros H. apply io_inv in H. destruct H as [(? & ? & ?) | (_ & H)].
  - left. now constructor.
  - right. inversion H. auto.
Qed.

Lemma open_temp_inv fault w r w' :
  open_temp fault w = (r, w') ->
  io_failed fault OpenTemp w r w' \/
  (r = Ok tt /\ w' = set_buffer [] (set_temp (Some []) (tick w))).
Proof.
  intros H. apply io_inv in H. destruct H as [(? & ? & ?) | (_ & H)].
  - left. now constructor.
  - right. inversion H. auto.
Qed.

Lemma unpack_inv n bs w r w' :
  lift (struct_unpack_uint n bs) w = (r, w') ->
  w' = w /\ ((length bs = n /\ r = Ok (be_uint bs)) \/ r = Raise StructError).
Proof.
  unfold lift, struct_unpack_uint. intros H.
  destruct (Nat.eqb (length bs) n) eqn:E; inversion H; subst; split; auto.
  left. apply Nat.eqb_eq in E. auto.
Qed.

(** One step of symbolic execution of a run [H : m w = (r, w')]: the
    outcome of the next primitive, or the branch taken. *)
Ltac run_step H :=
  lazymatch type of H with
  | bind _ _ _ = _ => unfold bind at 1 in H
  | ret _ _ = _ => unfold ret in H
  | (_, _) = (_, _) => inversion H; subst; clear H
  | (if ?c then _ else _) _ = _ =>
      let E := fresh "Hif" in destruct c eqn:E
  | (let '(_, _) := struct_unpack_I4s ?h in _) _ = _ =>
      unfold struct_unpack_I4s in H; cbv beta iota zeta in H
  | context [f_in_read ?f ?s ?n ?w] =>
      let E := fresh "E" in
      destruct (f_in_read f s n w) as [? ?] eqn:E;
      apply read_inv in E;
      destruct E as [[? -> ->] | (-> & ->)]; cbv beta iota in H
  | context [f_in_tell ?f ?s ?w] =>
      let E := fresh "E" in
      destruct (f_in_tell f s w) as [? ?] eqn:E;
      apply tell_inv in E;
      destruct E as [[? -> ->] | (-> & ->)]; cbv beta iota in H
  | context [f_out_write ?f ?s ?d ?w] =>
      let E := fresh "E" in
      let Hw := fresh "Hw" in
      let Ht := fresh "Ht" in
      let Hk := fresh "Hk" in
      destruct (f_out_write f s d w) as [? ?] eqn:E;
      apply write_inv in E;
      destruct E as [? ? ? Hw Ht | ? ? ? ? Hk Hw Ht]; cbv beta iota in H
  | context [f_in_seek_cur ?f ?s ?o ?w] =>
      let E := fresh "E" in
      let Hoff := fresh "Hoff" in
      let Hout := fresh "Hout" in
      let Hin := fresh "Hin" in
      destruct (f_in_seek_cur f s o w) as [? ?] eqn:E;
      apply seek_inv in E;
      destruct E as [(Hoff & -> & ->)
                    | [[? -> ->]
                      | [(Hout & -> & ->) | (-> & Hoff & Hin & ->)]]];
      cbv beta iota in H
  | context [open_input ?f ?w] =>
      let E := fresh "E" in
      destruct (open_input f w) as [? ?] eqn:E;
      apply open_input_inv in E;
      destruct E as [[? -> ->] | (-> & ->)]; cbv beta iota in H
  | context [open_temp ?f ?w] =>
      let E := fresh "E" in
      destruct (open_temp f w) as [? ?] eqn:E;
      apply open_temp_inv in E;
      destruct E as [[? -> ->] | (-> & ->)]; cbv beta iota in H
  | context [lift (struct_unpack_uint ?n ?bs) ?w] =>
      let E := fresh "E" in
      let Hlen := fresh "Hlen" in
      destruct (lift (struct_unpack_uint n bs) w) as [? ?] eqn:E;
      apply unpack_inv in E;
      destruct E as (-> & [(Hlen & ->) | ->]); cbv beta iota in H
  | context [ret ?a ?w] => unfold ret in H; cbv beta iota in H
  | context [bind ?m ?k ?w] => unfold bind at 1 in H
  end.

(** The fields of the worlds met along a run. *)
Ltac world_fields :=
  unfold written, temp_bytes, flush_out in *;
  cbn [src temp_file buffer_size out_buffer cursor clock sys_calls failures
       write_log set_cursor set_temp set_buffer tick tick_sys note_failure
       log_write bytes_of] in *.

Lemma take_length_max {A} (l : list A) n :
  Z.of_nat (length (take n l)) <= Z.max 0 n.
Proof.
  rewrite take_firstn, length_firstn. lia.
Qed.

(** *** The payloads written are within bounds *)

Lemma units_valid_log w w' :
  write_log w' = write_log w -> units_valid w -> units_valid w'.
Proof. unfold units_valid, nal_units. now intros ->. Qed.

Lemma units_valid_snoc (l : list (site * list byte)) s data :
  Forall valid_nal (map snd (filter (fun e => is_nal_data (fst e)) l)) ->
  (is_nal_data s = true -> valid_nal data) ->
  Forall valid_nal
    (map snd (filter (fun e => is_nal_data (fst e)) (l ++ [(s, data)]))).
Proof.
  intros Hv Hd.
  rewrite filter_app, map_app. apply Forall_app. split; [assumption|].
  cbn [filter fst]. destruct (is_nal_data s); cbn; auto.
Qed.

Ltac units_valid :=
  unfold units_valid, nal_units in *;
  cbn [write_log set_cursor set_temp set_buffer tick note_failure flush_out] in *;
  repeat first
    [ assumption
    | apply units_valid_snoc; [| discriminate] ].

Lemma extract_nals_units fault fuel : forall w r w',
  extract_nals fault fuel w = (r, w') -> units_valid w -> units_valid w'.
Proof.
  induction fuel as [|fuel IH]; intros w r w' H Hv.
  - inversion H; subst; assumption.
  - rewrite extract_nals_S in H. repeat run_step H; try solve [units_valid].
    apply IH in H; [assumption|].
    unfold units_valid, nal_units in *. cbn [write_log].
    apply units_valid_snoc; [units_valid |].
    intros _. unfold valid_nal.
    match goal with
    | Hs : (Z.of_nat (length (take ?n ?l)) <? ?n) = false,
      Hb : _ || _ = false |- _ =>
        pose proof (take_length_max l n);
        pose proof (be_uint_nonneg (take 4 (remaining w)));
        apply Z.ltb_ge in Hs; apply orb_false_iff in Hb;
        destruct Hb as [Hmax Hzero]; apply Z.eqb_neq in Hzero;
        assert (n <= MAX_NAL_LEN) by lia; lia
    end.
Qed.

(** *** Where a failure leads, and what is written by then *)

Lemma annexb_snoc units u : annexb (units ++ [u]) = annexb units ++ START_CODE ++ u.
Proof.
  unfold annexb. rewrite flat_map_app. cbn [flat_map]. now rewrite app_nil_r.
Qed.

Lemma nal_units_snoc (l : list (site * list byte)) s data :
  map snd (filter (fun e => is_nal_data (fst e)) (l ++ [(s, data)])) =
  map snd (filter (fun e => is_nal_data (fst e)) l) ++
  (if is_nal_data s then [data] else []).
Proof.
  rewrite filter_app, map_app. cbn [filter fst]. now destruct (is_nal_data s).
Qed.

(** A leaf of a run in which a read of the extraction loop, or the write
    of a start code, failed. *)
Ltac failed_in_extraction Hs :=
  right; eexists;
  split; [reflexivity|]; split; [reflexivity|]; split; [reflexivity|];
  split; [eauto|];
  destruct Hs as [Hs ?]; unfold stream_at_failure, nal_units in *;
  world_fields; cbn [is_nal_data];
  rewrite ?nal_units_snoc; cbn [is_nal_data]; rewrite ?app_nil_r;
  split; [congruence | auto].

Lemma extract_nals_outcome fault fuel : forall w r w',
  extract_nals fault fuel w = (r, w') -> stream_framed w ->
  (failures w' = failures w /\ stream_framed w') \/
  (exists s, failures w' = failures w ++ [s] /\ in_extraction s = true /\
             r = Raise OSError /\ (exists k, fault k = true) /\
             written w' = stream_at_failure s w' /\ temp_file w' <> None).
Proof.
  induction fuel as [|fuel IH]; intros w r w' H Hs.
  - inversion H; subst; auto.
  - rewrite extract_nals_S in H. repeat run_step H.
    all: try solve [left; split; [reflexivity | exact Hs]].
    all: try solve [failed_in_extraction Hs].
    apply IH in H.
    + world_fields. exact H.
    + destruct Hs as [Hs Hn]. unfold stream_framed, nal_units in *.
      world_fields. split; [| auto].
      rewrite Hw0, Hw, Hs, !nal_units_snoc. cbn [is_nal_data].
      rewrite app_nil_r.
      match goal with
      | |- _ = annexb (SPS :: PPS :: ?units ++ [?u]) =>
          change (SPS :: PPS :: units ++ [u]) with ((SPS :: PPS :: units) ++ [u])
      end.
      rewrite annexb_snoc. now rewrite <- !app_assoc.
Qed.

(** *** The same for the box-scanning loop and the with-block *)

Ltac scan_step H :=
  first
    [ run_step H
    | lazymatch type of H with
      | context [try_extraction ?b ?w] =>
          let E := fresh "Hloop" in
          unfold try_extraction in H;
          destruct (b w) as [[[]|[]|] ?] eqn:E; cbv beta iota in H
      | context [if ?c then _ else _] =>
          let E := fresh "Hif" in destruct c eqn:E
      end ].

Ltac failed_outside :=
  right; left; eexists; split; [reflexivity|]; split; reflexivity.

Lemma scan_atoms_outcome fault fuel : forall w r w',
  scan_atoms fault fuel w = (r, w') -> stream_framed w ->
  (failures w' = failures w /\ stream_framed w') \/
  (exists s, failures w' = failures w ++ [s] /\ in_extraction s = false /\
             r = Raise OSError) \/
  (exists s, failures w' = failures w ++ [s] /\ in_extraction s = true /\
             r = Ok true /\ (exists k, fault k = true) /\
             written w' = stream_at_failure s w' /\ temp_file w' <> None).
Proof.
  induction fuel as [|fuel IH]; intros w r w' H Hs.
  - inversion H; subst; auto.
  - rewrite scan_atoms_S in H. repeat scan_step H.
    all: try solve [left; split; [reflexivity | exact Hs]].
    all: try solve [failed_outside].
    all: try solve [apply IH in H; [exact H | exact Hs]].
    all: match goal with
         | Hl : extraction_loop _ _ = _ |- _ =>
             unfold extraction_loop in Hl;
             apply extract_nals_outcome in Hl; [| exact Hs];
             destruct Hl as [(Hf & Hfr) | (s & Hf & Hin & Hr & Hk & Hw & Ht)];
             [ left; split; assumption
             | try discriminate Hr;
               right; right; exists s; repeat split; assumption ]
         end.
Qed.


(** The body of the with-block: the parameter sets, then the scan. *)
Lemma with_body_outcome fault fuel w r w' :
  (f_out_write fault WriteHeaders START_CODE ;;;
   f_out_write fault WriteHeaders SPS ;;;
   f_out_write fault WriteHeaders START_CODE ;;;
   f_out_write fault WriteHeaders PPS ;;;
   scan_atoms fault fuel) w = (r, w') ->
  written w = [] -> write_log w = [] -> temp_file w <> None ->
  (failures w' = failures w /\ stream_framed w') \/
  (exists s, failures w' = failures w ++ [s] /\ in_extraction s = false /\
             r = Raise OSError) \/
  (exists s, failures w' = failures w ++ [s] /\ in_extraction s = true /\
             r = Ok true /\ (exists k, fault k = true) /\
             written w' = stream_at_failure s w' /\ temp_file w' <> None).
Proof.
  intros H Hw0 Hl0 Ht0. repeat run_step H.
  all: try solve [failed_outside].
  apply scan_atoms_outcome in H; [exact H |].
  unfold stream_framed, nal_units. world_fields.
  split; [| auto].
  rewrite Hw3, Hw2, Hw1, Hw, Hw0, Hl0. reflexivity.
Qed.

(** Once the buffer is flushed, or when it is empty, the file holds all
    that was written. *)
Lemma written_closed w x :
  written w = x -> temp_file w <> None ->
  (out_buffer w = [] -> temp_file w = Some x) /\
  temp_file (flush_out (tick w)) = Some x.
Proof.
  intros Hw Ht. unfold written, temp_bytes in Hw. split.
  - intros Hb. rewrite Hb, app_nil_r in Hw. rewrite <- Hw.
    destruct (temp_file w); [reflexivity | contradiction].
  - cbn. unfold written, temp_bytes. cbn [temp_file out_buffer tick]. now rewrite Hw.
Qed.

(** The with-block, left through the close of [f_out]: no operation
    failed; or one outside the extraction loop did and [OSError] leaves
    the block; or the only one that did is inside the extraction loop,
    the block ends normally and the file holds what was written. *)
Lemma with_files_outcome fault fuel w r w' :
  with_files fault fuel w = (r, w') -> write_log w = [] -> failures w = [] ->
  (failures w' = [] /\
   (forall b, r = Ok b ->
              temp_file w' = Some (annexb (SPS :: PPS :: nal_units w')))) \/
  (Exists (fun s => in_extraction s = false) (failures w') /\
   r = Raise OSError) \/
  (exists s, failures w' = [s] /\ in_extraction s = true /\ r = Ok true /\
             (exists k, fault k = true) /\
             temp_file w' = Some (stream_at_failure s w')).
Proof.
  intros H Hl0 Hf0. unfold with_files in H.
  run_step H. run_step H.
  { inversion H; subst. right. left. cbn [failures note_failure tick].
    rewrite Hf0. split; [| reflexivity]. now constructor. }
  run_step H. run_step H.
  { inversion H; subst. right. left.
    cbn [failures note_failure tick set_cursor]. rewrite Hf0.
    split; [| reflexivity]. now constructor. }
  unfold with_exit in H.
  match type of H with
  | context [match ?body ?w0 with _ => _ end] =>
      destruct (body w0) as [rb wb] eqn:Eb;
      apply with_body_outcome in Eb; [| reflexivity | exact Hl0 | discriminate ]
  end.
  cbn [failures set_buffer set_temp tick set_cursor] in Eb. rewrite Hf0 in Eb.
  cbn [app] in Eb.
  assert (Hclose : rb <> OutOfFuel ->
            exists rc wc, f_out_close fault wb = (rc, wc) /\
              (r, w') = match rc with
                        | Ok _ => (rb, wc)
                        | Raise e => (Raise e, wc)
                        | OutOfFuel => (OutOfFuel, wc)
                        end).
  { intros Hrb. destruct (f_out_close fault wb) as [rc wc].
    exists rc, wc. split; [reflexivity|].
    destruct rb; [| | contradiction]; now rewrite <- H. }
  destruct rb as [found | e |].
  3: { inversion H; subst.
       destruct Eb as [(Hf & _) | [(s & _ & _ & Hr) | (s & _ & _ & Hr & _)]];
         try discriminate Hr.
       left. split; [exact Hf | discriminate]. }
  all: destruct Hclose as (rc & wc & Ec & Hrw); [discriminate|];
    clear H; apply close_inv in Ec;
    destruct Ec as [(-> & Hbuf & ->) | [(-> & ->) | [Hk -> ->]]];
    inversion Hrw; subst; clear Hrw.
  all: destruct Eb as [(Hf & [Hw Ht]) | [(s & Hf & Hin & Hr)
                                        | (s & Hf & Hin & Hr & Hk' & Hw & Ht)]].
  all: try discriminate Hr; try (injection Hr as ->).
  all: try destruct (written_closed _ _ Hw Ht) as [Hempty Hflushed].
  all: cbn [failures note_failure tick flush_out set_buffer set_temp]; rewrite ?Hf.
  (* the close failed, or a failure outside the loop came before *)
  all: try solve [right; left; split; [| reflexivity];
                  first [ apply Exists_cons_hd; assumption
                        | apply Exists_cons_tl, Exists_cons_hd; reflexivity
                        | apply Exists_cons_hd; reflexivity ]].
  (* an exception other than OSError leaves the block *)
  all: try solve [left; split; [reflexivity | discriminate]].
  (* no failure *)
  all: try solve [left; split; [reflexivity |]; intros ? _; auto].
  (* one failure, inside the loop *)
  all: right; right; exists s; repeat split; auto.
Qed.

(** *** The input file is only read *)

Lemma extract_nals_input fault fuel : forall w r w',
  extract_nals fault fuel w = (r, w') ->
  src w' = src w /\ buffer_size w' = buffer_size w.
Proof.
  induction fuel as [|fuel IH]; intros w r w' H.
  - inversion H; subst; auto.
  - rewrite extract_nals_S in H. repeat run_step H; try (split; reflexivity).
    apply IH in H. exact H.
Qed.

Lemma scan_atoms_input fault fuel : forall w r w',
  scan_atoms fault fuel w = (r, w') ->
  src w' = src w /\ buffer_size w' = buffer_size w.
Proof.
  induction fuel as [|fuel IH]; intros w r w' H.
  - inversion H; subst; auto.
  - rewrite scan_atoms_S in H. repeat scan_step H; try (split; reflexivity);
      try solve [apply IH in H; exact H];
      match goal with
      | Hl : extraction_loop _ _ = _ |- _ =>
          apply extract_nals_input in Hl; exact Hl
      end.
Qed.

(** How the with-block is left: by running out of fuel, or through the
    close of [f_out]. *)
Lemma with_exit_inv fault {A} (body : M A) w r w' :
  with_exit fault body w = (r, w') ->
  exists rb wb,
    body w = (rb, wb) /\
    ((rb = OutOfFuel /\ r = OutOfFuel /\ w' = wb) \/
     (rb <> OutOfFuel /\
      ((r = rb /\ out_buffer wb = [] /\ w' = wb) \/
       (r = rb /\ w' = flush_out (tick wb)) \/
       (fault (ops wb) = true /\ r = Raise OSError /\
        w' = note_failure CloseTemp (tick wb))))).
Proof.
  unfold with_exit. destruct (body w) as [rb wb]. intros H.
  exists rb, wb. split; [reflexivity|].
  destruct rb as [a | e |]; [| | left; inversion H; auto].
  all: right; split; [discriminate|];
    destruct (f_out_close fault wb) as [rc wc] eqn:Ec;
    apply close_inv in Ec;
    destruct Ec as [(-> & Hbuf & ->) | [(-> & ->) | [Hk -> ->]]];
    inversion H; subst; auto.
Qed.

Lemma with_files_input fault fuel w r w' :
  with_files fault fuel w = (r, w') ->
  src w' = src w /\ buffer_size w' = buffer_size w.
Proof.
  intros H. unfold with_files in H.
  run_step H. run_step H; [inversion H; subst; split; reflexivity |].
  run_step H. run_step H; [inversion H; subst; split; reflexivity |].
  apply with_exit_inv in H. destruct H as (rb & wb & Eb & Hexit).
  assert (Hb : src wb = src w /\ buffer_size wb = buffer_size w).
  { repeat run_step Eb; try (split; reflexivity).
    apply scan_atoms_input in Eb. exact Eb. }
  destruct Hexit as [(_ & _ & ->) | (_ & [(_ & _ & ->) | [(_ & ->) | (_ & _ & ->)]])];
    exact Hb.
Qed.

(** *** [recover_file] around the with-block *)

Lemma sys_inv fault {A} s (op : M A) w r w' :
  sys fault s op w = (r, w') ->
  (fault (ops w) = true /\ r = Raise OSError /\ w' = note_failure s (tick_sys w)) \/
  (fault (ops w) = false /\ op (tick_sys w) = (r, w')).
Proof.
  unfold sys. destruct (fault (ops w)); intros H.
  - left. inversion H. auto.
  - right. auto.
Qed.

Lemma remove_inv fault s w r w' :
  remove_temp fault s w = (r, w') ->
  (r = Ok tt /\ temp_file w = None /\ w' = w) \/
  (r = Ok tt /\ w' = set_temp None (tick_sys w)) \/
  (r = Raise OSError /\ w' = note_failure s (tick_sys w)).
Proof.
  unfold remove_temp. destruct (temp_file w) eqn:Et; intros H.
  - right. apply sys_inv in H. destruct H as [(_ & -> & ->) | (_ & H)].
    + right. auto.
    + left. inversion H. auto.
  - left. inversion H. auto.
Qed.

(** Lines 49-50: both calls went through, or one raised and [OSError]
    leaves [recover_file]. *)
Lemma prelude_inv fault w r w0 :
  (mkstemp fault ;;; os_close fault) (begin_run w) = (r, w0) ->
  (r = Ok tt /\ w0 = started w) \/
  (r = Raise OSError /\ src w0 = src w /\ buffer_size w0 = buffer_size w /\
   write_log w0 = [] /\
   exists s, is_sys_call s = true /\ failures w0 = [s]).
Proof.
  unfold bind, mkstemp, os_close. intros H.
  destruct (sys fault MkStemp _ (begin_run w)) as [r1 w1] eqn:E1.
  apply sys_inv in E1. destruct E1 as [(_ & -> & ->) | (_ & E1)].
  - inversion H; subst. right. repeat split. now exists MkStemp.
  - inversion E1; subst. apply sys_inv in H.
    destruct H as [(_ & -> & ->) | (_ & H)].
    + right. repeat split. now exists CloseFd.
    + inversion H; subst. left. split; reflexivity.
Qed.

Lemma finally_inv fault r muxed w :
  let o := finally fault r muxed w in
  mux_input o = muxed /\
  src (final o) = src w /\ buffer_size (final o) = buffer_size w /\
  write_log (final o) = write_log w /\
  ((failures (final o) = failures w /\ returned o = r /\
    temp_file (final o) = None) \/
   (failures (final o) = failures w ++ [RemoveFinally] /\
    returned o = Raise OSError)).
Proof.
  cbv zeta. unfold finally.
  destruct (remove_temp fault RemoveFinally w) as [rr w'] eqn:E.
  apply remove_inv in E.
  destruct E as [(-> & Ht & ->) | [(-> & ->) | (-> & ->)]]; cbn; auto 10.
Qed.

(** [recover_file] in terms of the way the with-block ends. *)
Lemma recover_file_cases fault ffmpeg fuel w :
  let o := recover_file fault ffmpeg fuel w in
  src (final o) = src w /\ buffer_size (final o) = buffer_size w /\
  ((returned o = Raise OSError /\ mux_input o = None /\
    write_log (final o) = [] /\
    exists s, is_sys_call s = true /\ failures (final o) = [s]) \/
   (exists r w1,
      with_files fault fuel (started w) = (r, w1) /\
      mux_input o = snd (verdict ffmpeg r w1) /\
      write_log (final o) = write_log w1 /\
      ((failures (final o) = failures w1 /\
        returned o = fst (verdict ffmpeg r w1) /\
        (r <> OutOfFuel -> temp_file (final o) = None)) \/
       (exists s more,
          failures (final o) = failures w1 ++ s :: more /\
          is_sys_call s = true /\
          (returned o = Ok false \/ returned o = Raise OSError))))).
Proof.
  cbv zeta. unfold recover_file.
  destruct ((mkstemp fault;;; os_close fault) (begin_run w)) as [r0 w0] eqn:E0.
  apply prelude_inv in E0.
  destruct E0 as [(-> & ->) | (-> & Hs & Hb & Hl & Hf)].
  2: { cbn [returned mux_input final]. auto 10. }
  destruct (with_files fault fuel (started w)) as [r w1] eqn:E1.
  pose proof (with_files_input _ _ _ _ _ E1) as [Hs1 Hb1].
  cbn [src buffer_size started] in Hs1, Hb1.
  assert (Hgen : forall res muxed w2,
            src w2 = src w1 -> buffer_size w2 = buffer_size w1 ->
            write_log w2 = write_log w1 ->
            (failures w2 = failures w1 \/
             (failures w2 = failures w1 ++ [RemoveNoMdat] /\ res = Ok false)) ->
            res = fst (verdict ffmpeg r w1) -> muxed = snd (verdict ffmpeg r w1) ->
            let o := finally fault res muxed w2 in
            src (final o) = src w /\ buffer_size (final o) = buffer_size w /\
            ((returned o = Raise OSError /\ mux_input o = None /\
              write_log (final o) = [] /\
              exists s, is_sys_call s = true /\ failures (final o) = [s]) \/
             (exists r' w1',
                (r, w1) = (r', w1') /\
                mux_input o = snd (verdict ffmpeg r' w1') /\
                write_log (final o) = write_log w1' /\
                ((failures (final o) = failures w1' /\
                  returned o = fst (verdict ffmpeg r' w1') /\
                  (r' <> OutOfFuel -> temp_file (final o) = None)) \/
                 (exists s more,
                    failures (final o) = failures w1' ++ s :: more /\
                    is_sys_call s = true /\
          (returned o = Ok false \/ returned o = Raise OSError)))))).
  { intros res muxed w2 Hs2 Hb2 Hl2 Hf2 Hres Hmux. cbv zeta.
    destruct (finally_inv fault res muxed w2) as (Hm & Hs3 & Hb3 & Hl3 & Hfin).
    rewrite Hs3, Hb3, Hs2, Hb2, Hs1, Hb1. split; [reflexivity|].
    split; [reflexivity|]. right. exists r, w1.
    split; [reflexivity|]. rewrite Hm, Hl3, Hl2. split; [exact Hmux|].
    split; [reflexivity|].
    destruct Hfin as [(Hf3 & Hr3 & Ht3) | (Hf3 & Hr3)];
      destruct Hf2 as [Hf2 | [Hf2 Hne]]; rewrite Hf3, Hf2.
    - left. rewrite Hr3. auto.
    - right. exists RemoveNoMdat, []. rewrite Hr3. auto.
    - right. exists RemoveFinally, []. rewrite Hr3. auto.
    - right. exists RemoveNoMdat, [RemoveFinally]. rewrite Hr3, <- app_assoc.
      auto. }
  destruct r as [[|] | [| |] |].
  - (* found_mdat: the mux step *)
    cbn [negb]. destruct (ffmpeg (temp_file w1)) eqn:Ef;
      apply Hgen; cbn [verdict fst snd]; rewrite ?Ef; auto.
  - (* no mdat box *)
    cbn [negb].
    destruct (remove_temp fault RemoveNoMdat w1) as [rr w2] eqn:Er.
    apply remove_inv in Er. cbn [snd].
    destruct Er as [(-> & Ht & ->) | [(-> & ->) | (-> & ->)]];
      apply Hgen; cbn [verdict fst snd]; auto.
  - apply Hgen; cbn [verdict fst snd]; auto.
  - apply Hgen; cbn [verdict fst snd]; auto.
  - apply Hgen; cbn [verdict fst snd]; auto.
  - cbn [returned mux_input final verdict fst snd].
    rewrite Hs1, Hb1. split; [reflexivity|]. split; [reflexivity|].
    right. exists OutOfFuel, w1. repeat split. left. repeat split.
    intros H. contradiction.
Qed.


(** *** The payloads written are within bounds, in the whole run *)

Lemma extraction_loop_units fault w r w' :
  extraction_loop fault w = (r, w') -> units_valid w -> units_valid w'.
Proof. apply extract_nals_units. Qed.

Lemma scan_atoms_units fault fuel : forall w r w',
  scan_atoms fault fuel w = (r, w') -> units_valid w -> units_valid w'.
Proof.
  induction fuel as [|fuel IH]; intros w r w' H Hv.
  - inversion H; subst; assumption.
  - rewrite scan_atoms_S in H. repeat scan_step H;
      try solve [units_valid];
      try solve [eapply extraction_loop_units; [eassumption | units_valid]];
      try solve [eapply IH; [eassumption | units_valid]].
Qed.

Lemma with_files_units fault fuel w r w' :
  with_files fault fuel w = (r, w') -> units_valid w -> units_valid w'.
Proof.
  intros H Hv. unfold with_files in H.
  run_step H. run_step H; [inversion H; subst; exact Hv |].
  run_step H. run_step H; [inversion H; subst; exact Hv |].
  apply with_exit_inv in H. destruct H as (rb & wb & Eb & Hexit).
  assert (Hb : units_valid wb).
  { repeat run_step Eb; try solve [units_valid].
    eapply scan_atoms_units; [eassumption|]. units_valid. }
  destruct Hexit as [(_ & _ & ->) | (_ & [(_ & _ & ->) | [(_ & ->) | (_ & _ & ->)]])];
    exact Hb.
Qed.

(* ------------------------------------------------------------------ *)
(** ** C7: bounds on the units written *)

(** C7.  In every run, whatever the input and whichever I/O operations
    fail, each payload written to the output by the extraction loop has at
    least 1 and at most 20,000,000 bytes.  In the runs without I/O failure
    that reach the mux step, the stream handed over is exactly the start
    code-delimited sequence of the SPS, the PPS and those payloads. *)
Theorem C7_units_within_bounds fault ffmpeg fuel w :
  Forall (fun u => 1 <= Z.of_nat (length u) <= 20000000)
         (nal_units (final (recover_file fault ffmpeg fuel w)))
  /\
  let o := recover_file no_faults ffmpeg fuel w in
  (mux_input o = None \/
   mux_input o = Some (Some (annexb (SPS :: PPS :: nal_units (final o))))).
Proof.
  split.
  - change (units_valid (final (recover_file fault ffmpeg fuel w))).
    destruct (recover_file_cases fault ffmpeg fuel w)
      as (_ & _ & [(_ & _ & Hl & _) | (r & w1 & E & _ & Hl & _)]).
    + unfold units_valid, nal_units. rewrite Hl. constructor.
    + apply with_files_units in E; [| constructor].
      eapply units_valid_log; [exact Hl | exact E].
  - cbv zeta.
    destruct (recover_file_cases no_faults ffmpeg fuel w)
      as (_ & _ & [(_ & Hm & _) | (r & w1 & E & Hm & Hl & _)]); [now left |].
    rewrite Hm. unfold nal_units. rewrite Hl.
    apply with_files_outcome in E; [| reflexivity | reflexivity].
    destruct E as [(_ & Ht) | [(_ & ->) | (s & _ & _ & _ & (k & Hk) & _)]].
    + destruct r as [[|] | [| |] |]; cbn [verdict snd]; auto.
      right. now rewrite (Ht true eq_refl).
    + now left.
    + discriminate Hk.
Qed.

(* ------------------------------------------------------------------ *)
(** ** C5: I/O failures *)






(* ------------------------------------------------------------------ *)
(** ** The result does not depend on the fuel *)

Lemma refines_refl {A} (m : M A) : refines m m.
Proof. unfold refines. auto. Qed.

Lemma refines_bind {A B} (m : M A) (k1 k2 : A -> M B) :
  (forall a, refines (k1 a) (k2 a)) -> refines (bind m k1) (bind m k2).
Proof.
  unfold refines, bind. intros Hk w r w' H Hr.
  destruct (m w) as [[a | e |] w1]; auto.
Qed.

Lemma refines_with_exit fault {A} (m1 m2 : M A) :
  refines m1 m2 -> refines (with_exit fault m1) (with_exit fault m2).
Proof.
  unfold refines, with_exit. intros Hm w r w' H Hr.
  destruct (m1 w) as [rb wb] eqn:E1.
  destruct rb as [a | e |].
  - rewrite (Hm _ _ _ E1) by discriminate. exact H.
  - rewrite (Hm _ _ _ E1) by discriminate. exact H.
  - inversion H; subst. contradiction.
Qed.

Lemma scan_atoms_fuel fault fuel : forall fuel',
  (fuel <= fuel')%nat -> refines (scan_atoms fault fuel) (scan_atoms fault fuel').
Proof.
  induction fuel as [|fuel IH]; intros fuel' Hle.
  - intros w r w' H Hr. inversion H; subst. contradiction.
  - destruct fuel' as [|fuel']; [lia|]. rewrite !scan_atoms_S.
    apply refines_bind. intros header.
    destruct (_ <? 8); [apply refines_refl|].
    destruct (struct_unpack_I4s header) as [atom_size atom_type]. cbv zeta.
    destruct (String.eqb _ _); [apply refines_refl|].
    destruct (atom_size =? 1).
    + do 3 (apply refines_bind; intro). apply IH. lia.
    + destruct (atom_size =? 0); [apply refines_refl|].
      apply refines_bind; intro. apply IH. lia.
Qed.

Lemma with_files_fuel fault fuel fuel' :
  (fuel <= fuel')%nat -> refines (with_files fault fuel) (with_files fault fuel').
Proof.
  intros Hle. unfold with_files.
  do 2 (apply refines_bind; intro). apply refines_with_exit.
  do 4 (apply refines_bind; intro). now apply scan_atoms_fuel.
Qed.

(** Two bounds under which the with-block ends give the same result. *)
Lemma with_files_fuel_independent fault fuel1 fuel2 w :
  fst (with_files fault fuel1 w) <> OutOfFuel ->
  fst (with_files fault fuel2 w) <> OutOfFuel ->
  with_files fault fuel1 w = with_files fault fuel2 w.
Proof.
  intros H1 H2.
  destruct (with_files fault fuel1 w) as [r1 w1] eqn:E1.
  destruct (with_files fault fuel2 w) as [r2 w2] eqn:E2.
  pose proof (with_files_fuel fault fuel1 (Nat.max fuel1 fuel2)
                (Nat.le_max_l _ _) _ _ _ E1 H1) as E1'.
  pose proof (with_files_fuel fault fuel2 (Nat.max fuel1 fuel2)
                (Nat.le_max_r _ _) _ _ _ E2 H2) as E2'.
  congruence.
Qed.

(** Without failure, [recover_file] is the verdict on the with-block. *)
Lemma recover_file_no_faults ffmpeg fuel w r w1 :
  with_files no_faults fuel (started w) = (r, w1) ->
  let o := recover_file no_faults ffmpeg fuel w in
  returned o = fst (verdict ffmpeg r w1) /\
  mux_input o = snd (verdict ffmpeg r w1).
Proof.
  intros E. cbv zeta. unfold recover_file. rewrite prelude_no_faults, E.
  destruct r as [[|] | [| |] |]; cbn [negb verdict fst snd];
    try destruct (ffmpeg _); rewrite ?remove_no_faults, ?finally_no_faults;
    split; reflexivity.
Qed.

Lemma recover_file_input fault ffmpeg fuel w :
  src (final (recover_file fault ffmpeg fuel w)) = src w /\
  buffer_size (final (recover_file fault ffmpeg fuel w)) = buffer_size w.
Proof.
  destruct (recover_file_cases fault ffmpeg fuel w) as (Hs & Hb & _). auto.
Qed.

Lemma verdict_ended ffmpeg r w :
  fst (verdict ffmpeg r w) <> OutOfFuel -> r <> OutOfFuel.
Proof. intros H ->. now apply H. Qed.

Lemma verdict_mux ffmpeg1 ffmpeg2 r w :
  snd (verdict ffmpeg2 r w) = snd (verdict ffmpeg1 r w).
Proof. now destruct r as [[|] | [| |] |]. Qed.

(* ------------------------------------------------------------------ *)
(** ** C8: the stream is a function of the input bytes *)

(** C8.  Run [recover_file] on an input, then run it again on the disk the
    first run left, both without I/O failure: the first run leaves the
    input file as it was, and the second run hands the mux step the same
    bytes as the first (or neither reaches the mux step).  This holds
    whatever the mux step does in either run and whatever bounds on the
    number of scanning iterations the two runs end within. *)
Theorem C8_second_run_same_stream ffmpeg1 ffmpeg2 fuel1 fuel2 w :
  returned (recover_file no_faults ffmpeg1 fuel1 w) <> OutOfFuel ->
  returned (recover_file no_faults ffmpeg2 fuel2
              (final (recover_file no_faults ffmpeg1 fuel1 w))) <> OutOfFuel ->
  let o1 := recover_file no_faults ffmpeg1 fuel1 w in
  let o2 := recover_file no_faults ffmpeg2 fuel2 (final o1) in
  input_file (final o1) = input_file w /\
  mux_input o2 = mux_input o1.
Proof.
  intros H1 H2. cbv zeta.
  pose proof (recover_file_input no_faults ffmpeg1 fuel1 w) as [Hin Hbuf].
  split; [now rewrite Hin|].
  assert (Hst : started (final (recover_file no_faults ffmpeg1 fuel1 w))
                = started w).
  { unfold started. now rewrite Hin, Hbuf. }
  destruct (with_files no_faults fuel1 (started w)) as [r1 w1] eqn:E1.
  destruct (with_files no_faults fuel2 (started w)) as [r2 w2] eqn:E2.
  destruct (recover_file_no_faults ffmpeg1 fuel1 w r1 w1 E1) as [Hr1 Hm1].
  destruct (recover_file_no_faults ffmpeg2 fuel2
              (final (recover_file no_faults ffmpeg1 fuel1 w)) r2 w2)
    as [Hr2 Hm2]; [now rewrite Hst |].
  rewrite Hr1 in H1. rewrite Hr2 in H2.
  apply verdict_ended in H1, H2.
  pose proof (with_files_fuel_independent no_faults fuel1 fuel2 (started w)) as Heq.
  rewrite E1, E2 in Heq. specialize (Heq H1 H2). inversion Heq; subst.
  rewrite Hm1, Hm2. apply verdict_mux.
Qed.

Lemma C8_witness :
  let o1 := recover_file no_faults ffmpeg_ok 2 (disk scenario_input) in
  let o2 := recover_file no_faults (fun _ => Exited 1) 5 (final o1) in
  input_file (final o1) = input_file (disk scenario_input) /\
  mux_input o2 = mux_input o1.
Proof.
  apply (C8_second_run_same_stream ffmpeg_ok (fun _ => Exited 1) 2 5
           (disk scenario_input)).
  - vm_compute. discriminate.
  - vm_compute. discriminate.
Defined.


(* ------------------------------------------------------------------ *)
(** ** C6: skipping a non-payload box *)

(** The scanner at a non-payload header that is present in the file. *)
Lemma scan_atoms_skip fuel w size_bytes tag rest :
  length size_bytes = 4%nat -> length tag = 4%nat -> tag <> mdat_tag ->
  remaining w = size_bytes ++ tag ++ rest ->
  scan_atoms no_faults (S fuel) w =
  (if be_uint size_bytes =? 1 then
     large_size <- f_in_read no_faults ReadSkipLargeSize 8 ;;
     atom_size' <- lift (struct_unpack_uint 8 large_size) ;;
     f_in_seek_cur no_faults SeekSkip (atom_size' - 16) ;;;
     scan_atoms no_faults fuel
   else if be_uint size_bytes =? 0 then ret false
   else
     f_in_seek_cur no_faults SeekSkip (be_uint size_bytes - 8) ;;;
     scan_atoms no_faults fuel)
    (set_cursor (cursor w + 8) (tick w)).
Proof.
  intros Hs Ht Hne Hrem.
  pose proof (decode_not_mdat _ Ht Hne) as Hname.
  destruct (read_header size_bytes tag rest w Hs Ht Hrem) as [Hhead Hl8].
  rewrite scan_atoms_S. unfold bind at 1. rewrite read_no_faults, Hhead, Hl8.
  change (8 <? 8) with false. cbv iota beta.
  rewrite unpack_I4s_app by assumption. cbv zeta. now rewrite Hname.
Qed.

(** The same, the 8 bytes of the extended size being present too. *)
Lemma scan_atoms_skip_large fuel w size_bytes tag large_size rest :
  0 <= cursor w ->
  length size_bytes = 4%nat -> length tag = 4%nat -> tag <> mdat_tag ->
  length large_size = 8%nat -> be_uint size_bytes = 1 ->
  remaining w = size_bytes ++ tag ++ large_size ++ rest ->
  scan_atoms no_faults (S fuel) w =
  (f_in_seek_cur no_faults SeekSkip (be_uint large_size - 16) ;;;
   scan_atoms no_faults fuel)
    (set_cursor (cursor w + 16) (tick (tick w))).
Proof.
  intros Hc Hs Ht Hne Hl H1 Hrem.
  rewrite (scan_atoms_skip fuel w size_bytes tag _ Hs Ht Hne Hrem), H1.
  change (1 =? 1) with true. cbv iota.
  unfold bind at 1. rewrite read_no_faults.
  change (cursor w + 8) with (cursor w + Z.of_nat 8).
  rewrite (remaining_advance w 8 Hc), Hrem.
  rewrite app_assoc, skipn_app_exact by (rewrite length_app; lia).
  rewrite take_app_exact by (now rewrite Hl).
  unfold bind at 1, lift, struct_unpack_uint. rewrite Hl, Nat.eqb_refl.
  f_equal. unfold set_cursor, tick.
  cbn [src temp_file buffer_size out_buffer cursor clock sys_calls failures
       write_log].
  f_equal. lia.
Qed.

(** C6 as stated fails: at the header 00 00 00 01 'free' followed by the
    extended size ff ff ff ff ff ff ff ff the scanner does not seek
    forward by that size minus 16, which is no file offset: the seek
    raises [ValueError], and the exception leaves [recover_file]. *)
Lemma C6_counterexample :
  ~ seeks_by_extended_size 0 (after_headers (disk huge_large_size_input)) /\
  returned (recover_file no_faults ffmpeg_ok 1 (disk huge_large_size_input))
    = Raise ValueError.
Proof.
  split; [| reflexivity].
  intros H.
  specialize (H (pack_I 1) free_tag (pack_Q (2 ^ 64 - 1)) []
                eq_refl eq_refl eq_refl ltac:(discriminate) eq_refl eq_refl).
  vm_compute in H. discriminate H.
Qed.

(** C6, amended.  Let the scanner (no I/O failure) stand at an 8-byte box
    header whose tag is not mdat.  If the size field is 1 and the 8 bytes
    of the extended size follow, it reads them and seeks forward by
    (extended size - 16): when the position sought is one the file system
    allows, the next iteration starts there, at the position after these
    16 bytes plus (extended size - 16).  If the size field is 0 it stops
    with found_mdat False.  Otherwise it seeks forward by (size - 8): when
    the position sought is one the file system allows, the next iteration
    starts there.  A complete box of either form is stepped over: the
    next iteration starts at the first byte after the box. *)
Theorem C6_skips_non_payload_box fuel w size_bytes tag rest :
  0 <= cursor w ->
  length size_bytes = 4%nat -> length tag = 4%nat -> tag <> mdat_tag ->
  remaining w = size_bytes ++ tag ++ rest ->
  let atom_size := be_uint size_bytes in
  let run := scan_atoms no_faults (S fuel) w in
  (atom_size = 1 ->
   forall large_size rest',
     rest = large_size ++ rest' -> length large_size = 8%nat ->
     cursor w + be_uint large_size <= max_position (src w) ->
     run = scan_atoms no_faults fuel
             (set_cursor (cursor w + 16 + (be_uint large_size - 16))
                         (tick (tick (tick w))))) /\
  (atom_size = 0 -> run = (Ok false, set_cursor (cursor w + 8) (tick w))) /\
  (atom_size <> 1 -> atom_size <> 0 ->
   cursor w + atom_size <= max_position (src w) ->
   run = scan_atoms no_faults fuel
           (set_cursor (cursor w + 8 + (atom_size - 8)) (tick (tick w)))) /\
  (forall b rest0,
     skippable b -> size_bytes ++ tag ++ rest = encode_box b ++ rest0 ->
     exists w', run = scan_atoms no_faults fuel w' /\
                cursor w' = cursor w + box_size b /\ remaining w' = rest0).
Proof.
  intros Hc Hs Ht Hne Hrem. cbv zeta.
  pose proof (input_fits w) as [_ Hmax].
  split; [| split; [| split]].
  - intros H1 large_size rest' -> Hl Hpos.
    rewrite (scan_atoms_skip_large fuel w size_bytes tag large_size rest'
               Hc Hs Ht Hne Hl H1 Hrem).
    pose proof (be_uint_nonneg large_size).
    unfold bind at 1.
    rewrite seek_no_faults
      by (unfold min_offset, max_offset in *; cbn [cursor src set_cursor tick]; lia).
    reflexivity.
  - intros H0. rewrite (scan_atoms_skip fuel w size_bytes tag rest Hs Ht Hne Hrem).
    rewrite H0. reflexivity.
  - intros H1 H0 Hpos.
    rewrite (scan_atoms_skip fuel w size_bytes tag rest Hs Ht Hne Hrem).
    replace (be_uint size_bytes =? 1) with false by (symmetry; lia).
    replace (be_uint size_bytes =? 0) with false by (symmetry; lia).
    pose proof (be_uint_nonneg size_bytes).
    unfold bind at 1.
    rewrite seek_no_faults
      by (unfold min_offset, max_offset in *; cbn [cursor src set_cursor tick]; lia).
    reflexivity.
  - intros b rest0 Hb Henc. rewrite Henc in Hrem.
    destruct (scan_atoms_box fuel b rest0 w Hb Hc Hrem) as (w' & E & Ha).
    exists w'. split; [exact E|].
    destruct (advanced_remaining _ _ _ _ _ _ Ha
                (eq_sym (encode_box_length b Hb)) Hc Hrem) as [_ Hrest].
    split; [apply Ha | exact Hrest].
Qed.

(** The theorem at a box in extended form (16 bytes of header, 2 of
    body) and at one in normal form (8 bytes of header, 2 of body). *)
Lemma C6_witness :
  (let w := after_headers (disk large_box_input) in
   scan_atoms no_faults 2 w =
   scan_atoms no_faults 1
     (set_cursor (cursor w + 16 + (18 - 16)) (tick (tick (tick w))))) /\
  (let w := after_headers (disk scenario_input) in
   scan_atoms no_faults 2 w =
   scan_atoms no_faults 1
     (set_cursor (cursor w + 8 + (10 - 8)) (tick (tick w)))).
Proof.
  split.
  - destruct (C6_skips_non_payload_box 1 (after_headers (disk large_box_input))
                (pack_I 1) free_tag
                (pack_Q 18 ++ [x00; x00] ++
                 encode_mdat_header (MdatNormal 0) ++ avcc [nal5]))
      as (H & _); [cbn; lia | reflexivity | reflexivity | discriminate
                   | reflexivity |].
    apply (H eq_refl (pack_Q 18)
             ([x00; x00] ++ encode_mdat_header (MdatNormal 0) ++ avcc [nal5]));
      [reflexivity | reflexivity | vm_compute; discriminate].
  - destruct (C6_skips_non_payload_box 1 (after_headers (disk scenario_input))
                (pack_I 10) free_tag
                ([x00; x00] ++ encode_mdat_header (MdatNormal 0) ++
                 avcc [nal5; nal7]))
      as (_ & _ & H & _); [cbn; lia | reflexivity | reflexivity | discriminate
                           | reflexivity |].
    apply H; [discriminate | discriminate | vm_compute; discriminate].
Defined.

(* ------------------------------------------------------------------ *)
(** ** C9: the default output path *)

Ltac Z_bool :=
  first [ apply Z.leb_le | apply Z.ltb_lt | apply Z.gtb_lt ].

Lemma take_drop {A} (l : list A) n : take n l ++ drop n l = l.
Proof. rewrite take_firstn, drop_skipn. apply firstn_skipn. Qed.

Lemma rfind_from_absent c p : forall i, ~ In c p -> rfind_from c p i = -1.
Proof.
  induction p as [|a p IH]; intros i Hn; cbn [rfind_from]; [reflexivity|].
  rewrite IH by (intros H; apply Hn; now right). cbn.
  destruct (Ascii.eqb a c) eqn:E; [|reflexivity].
  apply Ascii.eqb_eq in E. exfalso. apply Hn. now left.
Qed.

Lemma rfind_from_negative c p : forall i,
  0 <= i -> rfind_from c p i < 0 -> ~ In c p.
Proof.
  induction p as [|a p IH]; intros i Hi Hr; cbn [rfind_from] in Hr; [tauto|].
  destruct (0 <=? rfind_from c p (i + 1)) eqn:E0.
  - apply Z.leb_le in E0. lia.
  - apply Z.leb_gt in E0. destruct (Ascii.eqb a c) eqn:E; [lia|].
    apply Ascii.eqb_neq in E. intros [H | H]; [contradiction|].
    revert H. apply (IH (i + 1)); lia.
Qed.

(** The index found is that of the last occurrence. *)
Lemma rfind_from_last c post : forall pre i,
  0 <= i -> ~ In c post ->
  rfind_from c (pre ++ c :: post) i = i + Z.of_nat (length pre).
Proof.
  intros pre. induction pre as [|a pre IH]; intros i Hi Hn.
  - cbn [app rfind_from length]. rewrite rfind_from_absent by assumption.
    cbn. rewrite Ascii.eqb_refl. lia.
  - cbn [app rfind_from length]. rewrite IH by (lia || assumption).
    replace (0 <=? i + 1 + Z.of_nat (length pre)) with true by (symmetry; Z_bool; lia).
    lia.
Qed.

Lemma rfind_from_found c p : forall i j,
  0 <= i -> rfind_from c p i = j -> 0 <= j ->
  exists pre post,
    p = pre ++ c :: post /\ j = i + Z.of_nat (length pre) /\ ~ In c post.
Proof.
  induction p as [|a p IH]; intros i j Hi Hr Hj; cbn [rfind_from] in Hr; [lia|].
  destruct (0 <=? rfind_from c p (i + 1)) eqn:E0.
  - apply Z.leb_le in E0.
    destruct (IH (i + 1) j) as (pre & post & -> & -> & Hn); [lia | assumption | lia |].
    exists (a :: pre), post. cbn [app length]. repeat split; [lia | assumption].
  - apply Z.leb_gt in E0. destruct (Ascii.eqb a c) eqn:E; [|lia].
    apply Ascii.eqb_eq in E. subst a.
    exists [], p. cbn [app length]. repeat split; [lia|].
    apply (rfind_from_negative c p (i + 1)); lia.
Qed.

Lemma rfind_from_present c s : forall i,
  0 <= i -> In c s -> i <= rfind_from c s i.
Proof.
  induction s as [|a s IH]; intros i Hi Hin; [contradiction|].
  cbn [rfind_from].
  destruct (in_dec ascii_dec c s) as [Hs | Hs].
  - pose proof (IH (i + 1) ltac:(lia) Hs).
    replace (0 <=? rfind_from c s (i + 1)) with true by (symmetry; Z_bool; lia). lia.
  - rewrite rfind_from_absent by assumption. cbn.
    destruct Hin as [-> | Hin]; [| contradiction].
    rewrite Ascii.eqb_refl. lia.
Qed.

Lemma rfind_from_suffix c s a : forall i,
  0 <= i -> In c s -> i + Z.of_nat (length a) <= rfind_from c (a ++ s) i.
Proof.
  induction a as [|y a IH]; intros i Hi Hin.
  - cbn [app length]. pose proof (rfind_from_present c s i Hi Hin). lia.
  - cbn [app rfind_from length].
    pose proof (IH (i + 1) ltac:(lia) Hin).
    replace (0 <=? rfind_from c (a ++ s) (i + 1)) with true by (symmetry; Z_bool; lia).
    lia.
Qed.

Lemma rfind_from_prefix c s a : forall i,
  ~ In c s -> rfind_from c (a ++ s) i = rfind_from c a i.
Proof.
  induction a as [|y a IH]; intros i Hn.
  - cbn [app]. now rewrite rfind_from_absent.
  - cbn [app rfind_from]. now rewrite IH.
Qed.

Lemma rfind_from_bound c a : forall i,
  0 <= i -> rfind_from c a i < i + Z.of_nat (length a) \/ a = [].
Proof.
  induction a as [|y a IH]; intros i Hi; [now right|]. left.
  cbn [rfind_from length].
  destruct (IH (i + 1) ltac:(lia)) as [H | ->].
  - destruct (0 <=? _); [lia|]. destruct (Ascii.eqb y c); lia.
  - cbn. destruct (Ascii.eqb y c); lia.
Qed.

Lemma skip_leading_dots_some n p : forall f d r,
  skip_leading_dots n p f d = Some r -> r = (take d p, drop d p).
Proof.
  induction n as [|n IH]; intros f d r H; cbn [skip_leading_dots] in H;
    [discriminate|].
  destruct (f <? d); [|discriminate].
  destruct (not_dot_at p f); [now inversion H | eauto].
Qed.

Lemma skip_leading_dots_finds p j d : forall n f,
  0 <= f <= j -> j < d -> (Z.to_nat (j - f) < n)%nat ->
  not_dot_at p j = true ->
  skip_leading_dots n p f d = Some (take d p, drop d p).
Proof.
  induction n as [|n IH]; intros f Hf Hd Hn Hj; [lia|].
  cbn [skip_leading_dots].
  replace (f <? d) with true by (symmetry; Z_bool; lia).
  destruct (not_dot_at p f) eqn:E; [reflexivity|].
  assert (f <> j) by congruence.
  apply IH; (lia || assumption).
Qed.

Lemma not_dot_at_char a x b :
  x <> "."%char -> not_dot_at (a ++ x :: b) (Z.of_nat (length a)) = true.
Proof.
  intros Hx. unfold not_dot_at.
  rewrite drop_skipn, Nat2Z.id, skipn_app_exact by reflexivity.
  rewrite take_firstn. change (Z.to_nat 1) with 1%nat. cbn [firstn].
  apply Ascii.eqb_neq in Hx. now rewrite Hx.
Qed.

(** [splitext] splits the path in two; the second part is empty or starts
    at a dot and holds no other dot and no slash. *)
Lemma splitext_shape p :
  let '(base, ext) := splitext p in
  p = base ++ ext /\
  (ext = [] \/
   exists e, ext = "."%char :: e /\ ~ In "."%char e /\ ~ In "/"%char e).
Proof.
  unfold splitext.
  destruct (rfind "." p >? rfind "/" p) eqn:Egt;
    [| split; [now rewrite app_nil_r | now left]].
  destruct (skip_leading_dots _ p _ _) as [r|] eqn:Es;
    [| split; [now rewrite app_nil_r | now left]].
  apply skip_leading_dots_some in Es. subst r.
  split; [symmetry; apply take_drop | right].
  assert (Hsep : -1 <= rfind "/" p).
  { unfold rfind. destruct (Z_lt_le_dec (rfind_from "/" p 0) 0) as [Hneg|]; [|lia].
    apply rfind_from_negative in Hneg; [|lia].
    rewrite rfind_from_absent by assumption. lia. }
  assert (Hdot : 0 <= rfind "." p) by lia.
  destruct (rfind_from_found "." p 0 (rfind "." p) ltac:(lia) eq_refl Hdot)
    as (pre & post & Hp & Hj & Hn).
  exists post. rewrite Hj. cbn [Z.add]. rewrite drop_skipn, Nat2Z.id.
  rewrite Hp at 1. rewrite skipn_app_exact by reflexivity.
  repeat split; [assumption|].
  intros Hslash.
  assert (Hin : In "/"%char ("."%char :: post)) by now right.
  pose proof (rfind_from_suffix "/" _ pre 0 ltac:(lia) Hin) as Hge.
  rewrite <- Hp in Hge. fold (rfind "/" p) in Hge. lia.
Qed.

(** On a path whose last component holds a character other than a dot
    before its final ".ext", [splitext] cuts exactly that ".ext". *)
Lemma splitext_extension a x b e :
  x <> "."%char -> x <> "/"%char -> ~ In "/"%char b ->
  ~ In "."%char e -> ~ In "/"%char e ->
  splitext (a ++ x :: b ++ "."%char :: e) = (a ++ x :: b, "."%char :: e).
Proof.
  intros Hxd Hxs Hb He Hes.
  set (p := a ++ x :: b ++ "."%char :: e).
  assert (Hp : p = (a ++ x :: b) ++ "."%char :: e)
    by (unfold p; now rewrite <- app_assoc).
  assert (Hdot : rfind "." p = Z.of_nat (length (a ++ x :: b))).
  { unfold rfind. rewrite Hp, rfind_from_last by (lia || assumption). lia. }
  assert (Hsep : rfind "/" p < Z.of_nat (length a) /\ -1 <= rfind "/" p).
  { unfold rfind, p. rewrite rfind_from_prefix.
    - destruct (rfind_from_bound "/" a 0 ltac:(lia)) as [H | ->]; [| cbn; lia].
      split; [lia|].
      destruct (Z_lt_le_dec (rfind_from "/" a 0) 0) as [Hneg|]; [|lia].
      apply rfind_from_negative in Hneg; [|lia].
      rewrite rfind_from_absent by assumption. lia.
    - intros [H | H]; [congruence|].
      apply in_app_or in H. destruct H as [H | [H | H]];
        [contradiction | discriminate | contradiction]. }
  assert (Hlen : Z.of_nat (length (a ++ x :: b)) =
                 Z.of_nat (length a) + 1 + Z.of_nat (length b))
    by (rewrite length_app; cbn [length]; lia).
  unfold splitext. fold p. rewrite Hdot.
  replace (_ >? rfind "/" p) with true by (symmetry; Z_bool; lia).
  rewrite (skip_leading_dots_finds p (Z.of_nat (length a))).
  - rewrite Hp.
    rewrite take_app_exact by reflexivity.
    rewrite drop_skipn, Nat2Z.id, skipn_app_exact by reflexivity. reflexivity.
  - lia.
  - lia.
  - lia.
  - unfold p. now apply not_dot_at_char.
Qed.

(** C9.  Called with an input path and no output path, [main] calls
    [recover_file] with the input path and, as output path, the input path
    without its extension followed by "_fixed.mp4".  The extension is the
    part [os.path.splitext] splits off: empty, or a final ".ext" with no
    dot or slash in ext; and it is that final ".ext" whenever the last
    path component holds a character other than a dot before it. *)
Theorem C9_default_output_path prog in_file :
  exists base ext,
    main [prog; in_file] = CallRecoverFile in_file (base ++ str "_fixed.mp4") /\
    in_file = base ++ ext /\
    (ext = [] \/
     exists e, ext = "."%char :: e /\ ~ In "."%char e /\ ~ In "/"%char e) /\
    (forall a x b e,
       in_file = a ++ x :: b ++ "."%char :: e ->
       x <> "."%char -> x <> "/"%char -> ~ In "/"%char b ->
       ~ In "."%char e -> ~ In "/"%char e ->
       base = a ++ x :: b /\ ext = "."%char :: e).
Proof.
  pose proof (splitext_shape in_file) as Hshape.
  destruct (splitext in_file) as [base ext] eqn:Esplit.
  destruct Hshape as [Hcat Hext].
  exists base, ext. repeat split; try assumption.
  - unfold main. cbn [length Nat.ltb Nat.leb nth]. now rewrite Esplit.
  - rewrite H in Esplit. rewrite splitext_extension in Esplit by assumption.
    now inversion Esplit.
  - rewrite H in Esplit. rewrite splitext_extension in Esplit by assumption.
    now inversion Esplit.
Qed.

(* ------------------------------------------------------------------ *)
(** ** When the box scan terminates *)

Lemma remaining_skip w k1 k2 :
  0 <= cursor w ->
  drop (cursor w + Z.of_nat k1 + Z.of_nat k2) (input_file w) =
  skipn (k1 + k2) (remaining w).
Proof.
  intros Hc. unfold remaining.
  replace (cursor w + Z.of_nat k1 + Z.of_nat k2)
    with (cursor w + Z.of_nat (k1 + k2)) by lia.
  now apply drop_add.
Qed.

Lemma extract_nals_terminates fault fuel : forall w r w',
  extract_nals fault fuel w = (r, w') -> 0 <= cursor w ->
  (length (remaining w) < fuel)%nat -> r <> OutOfFuel.
Proof.
  induction fuel as [|fuel IH]; intros w r w' H Hc Hlen.
  - lia.
  - rewrite extract_nals_S in H. repeat run_step H; try discriminate.
    apply IH in H; [assumption | cbn; lia |].
    unfold remaining at 1.
    cbn [cursor src tick set_cursor].
    rewrite remaining_skip, length_skipn by assumption.
    match goal with
    | Hl : length (take 4 (remaining w)) = 4%nat |- _ =>
        rewrite Hl; rewrite take_firstn, length_firstn in Hl
    end.
    change (Z.to_nat 4) with 4%nat in *. lia.
Qed.

Lemma extraction_loop_terminates fault w :
  0 <= cursor w -> fst (extraction_loop fault w) <> OutOfFuel.
Proof.
  intros Hc. unfold extraction_loop.
  destruct (extract_nals fault (S (length (input_file w))) w) as [r w'] eqn:E.
  apply extract_nals_terminates in E; [assumption | assumption |].
  pose proof (remaining_length w). lia.
Qed.

Lemma full_read_length {A} (l : list A) n :
  0 <= n -> (Z.of_nat (length (take n l)) <? n) = false ->
  length (take n l) = Z.to_nat n /\ (Z.to_nat n <= length l)%nat.
Proof.
  intros Hn H. apply Z.ltb_ge in H.
  rewrite take_firstn, length_firstn in *. lia.
Qed.

Lemma firstn_plus {A} (l : list A) : forall a b,
  firstn (a + b) l = firstn a l ++ firstn b (skipn a l).
Proof.
  induction l as [|x l IH]; intros a b.
  - now rewrite !firstn_nil, skipn_nil, firstn_nil.
  - destruct a as [|a]; [reflexivity|]. cbn. now rewrite IH.
Qed.

Lemma header16_parts {A} (l tail : list A) :
  length (firstn 8 l) = 8%nat ->
  firstn 4 (firstn 8 l ++ tail) = firstn 4 l /\
  firstn 8 (firstn 8 l ++ tail) = firstn 8 l /\
  skipn 8 (firstn 8 l ++ tail) = tail.
Proof.
  intros H8. repeat split.
  - rewrite firstn_app, H8. change (4 - 8)%nat with 0%nat.
    rewrite firstn_O, app_nil_r. apply firstn_firstn.
  - rewrite firstn_app, H8. change (8 - 8)%nat with 0%nat.
    rewrite firstn_O, app_nil_r. apply firstn_firstn.
  - now apply skipn_app_exact.
Qed.

(** Outside the one case of C10, every iteration of the box scan that goes
    on moves the cursor forward, so the scan ends within a number of
    iterations bounded by the length of the input, whichever I/O
    operations fail. *)
Lemma scan_atoms_terminates fault fuel : forall w r w',
  scan_atoms fault fuel w = (r, w') ->
  0 <= cursor w ->
  (forall p, 0 <= p -> ~ zero_large_size_at (input_file w) p) ->
  (Z.to_nat (Z.of_nat (length (input_file w)) + 1 - cursor w) < fuel)%nat ->
  r <> OutOfFuel.
Proof.
  induction fuel as [|fuel IH]; intros w r w' H Hc Hz Hfuel; [lia|].
  rewrite scan_atoms_S in H. repeat scan_step H; try discriminate.
  - (* the extraction loop does not run out of fuel *)
    exfalso.
    match goal with
    | Hl : extraction_loop _ ?w1 = _ |- _ =>
        pose proof (extraction_loop_terminates fault w1) as Ht;
        rewrite Hl in Ht; apply Ht; [| reflexivity];
        cbn [cursor set_cursor tick]; lia
    end.
  - exfalso.
    match goal with
    | Hl : extraction_loop _ ?w1 = _ |- _ =>
        pose proof (extraction_loop_terminates fault w1) as Ht;
        rewrite Hl in Ht; apply Ht; [| reflexivity];
        cbn [cursor set_cursor tick]; lia
    end.
  - (* extended form *)
    apply IH in H;
      [assumption | cbn [cursor set_cursor tick] in *; lia | exact Hz |].
    cbn [cursor set_cursor tick src] in *.
    match goal with
    | H8 : (Z.of_nat (length (take 8 (remaining w))) <? 8) = false |- _ =>
        destruct (full_read_length _ 8 ltac:(lia) H8) as [Hl8 Hin8]
    end.
    change (Z.to_nat 8) with 8%nat in *.
    set (large := take 8 (remaining (set_cursor (cursor w + Z.of_nat (length (take 8 (remaining w)))) (tick w)))) in *.
    assert (Hlarge : large = firstn 8 (skipn 8 (remaining w))).
    { unfold large. rewrite Hl8, (remaining_advance w 8 Hc). apply take_firstn. }
    assert (Hext : be_uint large <> 0).
    { intros Hzero. apply (Hz (cursor w) Hc). unfold zero_large_size_at.
      fold (remaining w). cbv zeta.
      rewrite take_firstn. change (Z.to_nat 16) with (8 + 8)%nat.
      rewrite firstn_plus, <- Hlarge.
      assert (Hf8 : length (firstn 8 (remaining w)) = 8%nat)
        by (rewrite take_firstn in Hl8; exact Hl8).
      destruct (header16_parts (remaining w) large Hf8) as (E4 & E8 & Etail).
      rewrite E4, E8, Etail. repeat split.
      - rewrite length_app, Hf8. lia.
      - match goal with
        | H1 : (be_uint (firstn 4 (take 8 (remaining w))) =? 1) = true |- _ =>
            apply Z.eqb_eq in H1; rewrite take_firstn in H1;
            change (Z.to_nat 8) with 8%nat in H1;
            rewrite firstn_firstn in H1; exact H1
        end.
      - intros Htag.
        match goal with
        | Hn : String.eqb (decode_ascii_ignore (skipn 4 (take 8 (remaining w)))) _ = false |- _ =>
            rewrite take_firstn in Hn; change (Z.to_nat 8) with 8%nat in Hn;
            rewrite Htag in Hn; discriminate Hn
        end.
      - exact Hzero. }
    pose proof (be_uint_nonneg large).
    pose proof (remaining_length w) as Hrl.
    unfold remaining in Hin8, Hrl. rewrite drop_skipn, length_skipn in Hin8.
    rewrite Hl8. lia.
  - (* normal form *)
    apply IH in H;
      [assumption | cbn [cursor set_cursor tick] in *; lia | exact Hz |].
    cbn [cursor set_cursor tick src] in *.
    match goal with
    | H8 : (Z.of_nat (length (take 8 (remaining w))) <? 8) = false |- _ =>
        destruct (full_read_length _ 8 ltac:(lia) H8) as [Hl8 Hin8]
    end.
    change (Z.to_nat 8) with 8%nat in *.
    pose proof (be_uint_nonneg (firstn 4 (take 8 (remaining w)))).
    repeat match goal with
    | Hb : (_ =? _) = false |- _ => apply Z.eqb_neq in Hb
    end.
    unfold remaining in Hin8. rewrite drop_skipn, length_skipn in Hin8.
    rewrite Hl8. lia.
Qed.

(** The with-block ends if the scan does. *)
Lemma with_files_terminates fault w r w' :
  (forall p, 0 <= p -> ~ zero_large_size_at (input_file w) p) ->
  with_files fault (length (input_file w) + 2) w = (r, w') ->
  r <> OutOfFuel.
Proof.
  intros Hz H. unfold with_files in H.
  run_step H. run_step H; [inversion H; discriminate |].
  run_step H. run_step H; [inversion H; discriminate |].
  apply with_exit_inv in H. destruct H as (rb & wb & Eb & Hexit).
  assert (Hb : rb <> OutOfFuel).
  { repeat run_step Eb; try discriminate.
    apply scan_atoms_terminates in Eb;
      [ assumption
      | cbn [cursor set_buffer set_temp tick set_cursor]; lia
      | exact Hz |].
    cbn [cursor src set_buffer set_temp tick set_cursor]. lia. }
  destruct Hexit as [(-> & _) | (_ & [(-> & _) | [(-> & _) | (_ & -> & _)]])];
    try assumption; try discriminate. contradiction.
Qed.

(** Hence [recover_file] returns or raises on every input that holds no
    such header, within a number of scanning iterations fixed by the
    length of the input. *)
Lemma recover_file_terminates fault ffmpeg w :
  (forall p, 0 <= p -> ~ zero_large_size_at (input_file w) p) ->
  returned (recover_file fault ffmpeg (length (input_file w) + 2) w) <> OutOfFuel.
Proof.
  intros Hz.
  destruct (recover_file_cases fault ffmpeg (length (input_file w) + 2) w)
    as (_ & _ & [(-> & _) | (r & w1 & E & _ & _ & [(_ & -> & _) | (s & more & _ & _ & [-> | ->])])]);
    try discriminate.
  apply (with_files_terminates fault (started w)) in E; [| exact Hz].
  destruct r as [[|] | [| |] |]; cbn [verdict fst]; try discriminate.
  contradiction.
Qed.

(* ================================================================== *)
(** * Further properties of [recover_file] and [main] *)

(** ** [struct.pack] undoes [struct.unpack] *)

Lemma byte_val_inj a b : byte_val a = byte_val b -> a = b.
Proof.
  unfold byte_val. intros H. apply N2Z.inj in H.
  pose proof (Byte.of_to_N a) as Ha. rewrite H, Byte.of_to_N in Ha.
  now inversion Ha.
Qed.

Lemma byte_of_Z_val k b : byte_of_Z (k * 256 + byte_val b) = b.
Proof.
  apply byte_val_inj. rewrite byte_val_of_Z.
  pose proof (byte_val_range b).
  rewrite Z.add_comm, Z.mod_add by lia. now apply Z.mod_small.
Qed.

Lemma pack_be_unpack bs : pack_be (length bs) (be_uint bs) = bs.
Proof.
  induction bs as [|b bs IH] using rev_ind; [reflexivity|].
  rewrite length_app, Nat.add_comm. cbn [length Nat.add pack_be].
  rewrite be_uint_snoc, byte_of_Z_val. f_equal.
  pose proof (byte_val_range b).
  rewrite Z.add_comm, Z.div_add by lia.
  rewrite Z.div_small by lia. exact IH.
Qed.

(** X11.  The big-endian fields round-trip: packing a value that fits in
    [n] bytes and unpacking it gives the value back, and packing the value
    unpacked from [n] bytes gives those bytes back; so every 4-byte and
    8-byte field the program reads is the encoding of exactly one value. *)
Theorem X11_struct_round_trip n z bs :
  0 <= z < 256 ^ Z.of_nat n -> length bs = n ->
  struct_unpack_uint n (pack_be n z) = Ok z /\
  struct_unpack_uint n bs = Ok (be_uint bs) /\
  pack_be n (be_uint bs) = bs /\
  0 <= be_uint bs < 256 ^ Z.of_nat n.
Proof.
  intros Hz Hl. unfold struct_unpack_uint.
  rewrite pack_be_length, Hl, Nat.eqb_refl, be_uint_pack_be.
  rewrite Z.mod_small by assumption.
  repeat split; try reflexivity.
  - subst n. apply pack_be_unpack.
  - apply be_uint_nonneg.
  - subst n. rewrite <- (pack_be_unpack bs) at 1. rewrite be_uint_pack_be.
    apply Z.mod_pos_bound. lia.
Qed.

Lemma X11_witness :
  struct_unpack_uint 4 (pack_be 4 20000000) = Ok 20000000 /\
  struct_unpack_uint 4 [x01; x31; x2d; x00] = Ok (be_uint [x01; x31; x2d; x00]) /\
  pack_be 4 (be_uint [x01; x31; x2d; x00]) = [x01; x31; x2d; x00] /\
  0 <= be_uint [x01; x31; x2d; x00] < 256 ^ Z.of_nat 4.
Proof.
  apply (X11_struct_round_trip 4 20000000 [x01; x31; x2d; x00]).
  - cbn. lia.
  - reflexivity.
Defined.

(** ** The payload tag *)

(** X1.  Although the tag is decoded with errors="ignore", which drops
    bytes above 0x7f, the four tag bytes of a header are taken for the
    payload tag exactly when they are m, d, a, t: a tag that differs in
    any byte (another case, a non-ASCII byte) is a box to skip. *)
Theorem X1_payload_tag_is_exact tag :
  length tag = 4%nat ->
  (String.eqb (decode_ascii_ignore tag) "mdat" = true <-> tag = mdat_tag) /\
  (tag <> mdat_tag -> String.eqb (decode_ascii_ignore tag) "mdat" = false).
Proof.
  intros Hl. split.
  - now apply decode_mdat.
  - now apply decode_not_mdat.
Qed.

Lemma X1_witness :
  (String.eqb (decode_ascii_ignore [x6d; x64; xe1; x74]) "mdat" = true
   <-> [x6d; x64; xe1; x74] = mdat_tag) /\
  ([x6d; x64; xe1; x74] <> mdat_tag ->
   String.eqb (decode_ascii_ignore [x6d; x64; xe1; x74]) "mdat" = false).
Proof.
  apply (X1_payload_tag_is_exact [x6d; x64; xe1; x74]). reflexivity.
Defined.

(** ** Any bytes after the payload header *)

(** Every byte string is a run of valid records followed by bytes on which
    the extraction loop stops. *)
Lemma records_decompose : forall n bytes,
  (length bytes <= n)%nat ->
  exists ps rest,
    bytes = avcc ps ++ rest /\ Forall valid_nal ps /\ stop_reason rest.
Proof.
  induction n as [|n IH]; intros bytes Hn.
  - exists [], bytes. repeat split; [constructor|]. apply CleanEnd. lia.
  - destruct (Nat.lt_ge_cases (length bytes) 4) as [Hshort | Hlong].
    { exists [], bytes. repeat split; [constructor|]. now apply CleanEnd. }
    set (lb := firstn 4 bytes). set (tl := skipn 4 bytes).
    assert (Hb : bytes = lb ++ tl) by (symmetry; apply firstn_skipn).
    assert (Hlb : length lb = 4%nat) by (unfold lb; rewrite length_firstn; lia).
    pose proof (be_uint_nonneg lb) as Hnn.
    destruct (Z.eq_dec (be_uint lb) 0) as [Hz | Hz].
    { exists [], bytes. repeat split; [constructor|].
      apply (CorruptLength _ lb tl); auto. }
    destruct (Z_lt_le_dec MAX_NAL_LEN (be_uint lb)) as [Hbig | Hok].
    { exists [], bytes. repeat split; [constructor|].
      apply (CorruptLength _ lb tl); auto. }
    destruct (Z_lt_le_dec (Z.of_nat (length tl)) (be_uint lb)) as [Htr | Hfull].
    { exists [], bytes. repeat split; [constructor|].
      apply (TruncatedUnit _ lb tl); auto. lia. }
    set (p := firstn (Z.to_nat (be_uint lb)) tl).
    set (rest := skipn (Z.to_nat (be_uint lb)) tl).
    assert (Hp : Z.of_nat (length p) = be_uint lb)
      by (unfold p; rewrite length_firstn; lia).
    destruct (IH rest) as (ps & rest' & Hrest & Hv & Hstop).
    { unfold rest. rewrite length_skipn.
      rewrite Hb, length_app in Hn. lia. }
    exists (p :: ps), rest'. repeat split.
    + cbn [avcc flat_map]. fold (avcc ps). unfold avcc_record.
      rewrite Hp. unfold pack_I. rewrite <- Hlb, pack_be_unpack.
      rewrite <- !app_assoc, <- Hrest. unfold p, rest.
      now rewrite firstn_skipn.
    + constructor; [| assumption]. unfold valid_nal. lia.
    + assumption.
Qed.

Lemma avcc_app ps qs : avcc (ps ++ qs) = avcc ps ++ avcc qs.
Proof. unfold avcc. apply flat_map_app. Qed.

(** X2.  Once the scan reaches the header of the payload box, nothing in
    the payload makes the run fail: whatever bytes follow, the mux step is
    run.  The stream handed over depends on those bytes alone: the boxes
    skipped before, the form of the payload header and the size it
    declares have no influence. *)
Theorem X2_payload_alone_decides ffmpeg fuel w1 w2 boxes1 boxes2 h1 h2 payload :
  Forall skippable boxes1 -> Forall skippable boxes2 ->
  mdat_header_ok h1 -> mdat_header_ok h2 ->
  input_file w1 = encode_boxes boxes1 ++ encode_mdat_header h1 ++ payload ->
  input_file w2 = encode_boxes boxes2 ++ encode_mdat_header h2 ++ payload ->
  (length boxes1 < fuel)%nat -> (length boxes2 < fuel)%nat ->
  let o1 := recover_file no_faults ffmpeg fuel w1 in
  let o2 := recover_file no_faults ffmpeg fuel w2 in
  (exists units,
     mux_input o1 = Some (Some (annexb (SPS :: PPS :: units))) /\
     Forall valid_nal units) /\
  mux_input o2 = mux_input o1 /\
  returned o2 = returned o1.
Proof.
  intros Hb1 Hb2 Hh1 Hh2 Hin1 Hin2 Hf1 Hf2.
  destruct (records_decompose (length payload) payload (Nat.le_refl _))
    as (ps & rest & Hpay & Hv & Hstop).
  rewrite Hpay in Hin1, Hin2.
  destruct (recover_file_reframes ffmpeg fuel w1 boxes1 h1 ps rest
              Hb1 Hh1 Hv Hstop Hin1 Hf1) as (Hm1 & Hr1 & _).
  destruct (recover_file_reframes ffmpeg fuel w2 boxes2 h2 ps rest
              Hb2 Hh2 Hv Hstop Hin2 Hf2) as (Hm2 & Hr2 & _).
  cbv zeta. rewrite Hm1, Hm2, Hr1, Hr2. repeat split. eauto.
Qed.

Lemma X2_witness :
  let o1 := recover_file no_faults ffmpeg_ok 2 (disk scenario_input) in
  let o2 := recover_file no_faults ffmpeg_ok 2
              (disk (encode_mdat_header (MdatLarge 28) ++ avcc [nal5; nal7])) in
  (exists units,
     mux_input o1 = Some (Some (annexb (SPS :: PPS :: units))) /\
     Forall valid_nal units) /\
  mux_input o2 = mux_input o1 /\
  returned o2 = returned o1.
Proof.
  apply (X2_payload_alone_decides ffmpeg_ok 2 (disk scenario_input)
           (disk (encode_mdat_header (MdatLarge 28) ++ avcc [nal5; nal7]))
           [free_box] [] (MdatNormal 0) (MdatLarge 28) (avcc [nal5; nal7])).
  - exact sample_boxes_skippable.
  - constructor.
  - exact sample_mdat_header_ok.
  - cbn. lia.
  - reflexivity.
  - reflexivity.
  - cbn. lia.
  - cbn. lia.
Defined.

(** X3.  Cutting the file short only loses units at the end: the units
    recovered from a payload are a prefix of the units recovered from any
    longer payload that starts with the same bytes. *)
Theorem X3_truncation_keeps_a_prefix ffmpeg fuel w1 w2 boxes h payload more :
  Forall skippable boxes -> mdat_header_ok h ->
  input_file w1 = encode_boxes boxes ++ encode_mdat_header h ++ payload ->
  input_file w2 =
    encode_boxes boxes ++ encode_mdat_header h ++ payload ++ more ->
  (length boxes < fuel)%nat ->
  exists units later,
    mux_input (recover_file no_faults ffmpeg fuel w1) =
      Some (Some (annexb (SPS :: PPS :: units))) /\
    mux_input (recover_file no_faults ffmpeg fuel w2) =
      Some (Some (annexb (SPS :: PPS :: units ++ later))).
Proof.
  intros Hb Hh Hin1 Hin2 Hf.
  destruct (records_decompose (length payload) payload (Nat.le_refl _))
    as (ps & rest & Hpay & Hv & Hstop).
  destruct (records_decompose (length (rest ++ more)) (rest ++ more)
              (Nat.le_refl _)) as (qs & rest2 & Hpay2 & Hv2 & Hstop2).
  exists ps, qs. split.
  - rewrite Hpay in Hin1.
    now destruct (recover_file_reframes ffmpeg fuel w1 boxes h ps rest
                    Hb Hh Hv Hstop Hin1 Hf) as (Hm1 & _).
  - assert (Hin2' : input_file w2 =
              encode_boxes boxes ++ encode_mdat_header h ++
              avcc (ps ++ qs) ++ rest2).
    { rewrite Hin2, Hpay, avcc_app. do 2 f_equal.
      rewrite <- !app_assoc. f_equal. exact Hpay2. }
    assert (Hv' : Forall valid_nal (ps ++ qs)) by (apply Forall_app; auto).
    now destruct (recover_file_reframes ffmpeg fuel w2 boxes h (ps ++ qs) rest2
                    Hb Hh Hv' Hstop2 Hin2' Hf) as (Hm2 & _).
Qed.

Lemma X3_witness :
  exists units later,
    mux_input (recover_file no_faults ffmpeg_ok 2 (disk truncated_input)) =
      Some (Some (annexb (SPS :: PPS :: units))) /\
    mux_input (recover_file no_faults ffmpeg_ok 2
                 (disk (truncated_input ++ [x6c; x41; x4f; xff]))) =
      Some (Some (annexb (SPS :: PPS :: units ++ later))).
Proof.
  apply (X3_truncation_keeps_a_prefix ffmpeg_ok 2 (disk truncated_input)
           (disk (truncated_input ++ [x6c; x41; x4f; xff]))
           [free_box] (MdatNormal 0)
           (avcc [nal5] ++ pack_I 7 ++ [x41; x9a; x24]) [x6c; x41; x4f; xff]).
  - exact sample_boxes_skippable.
  - exact sample_mdat_header_ok.
  - reflexivity.
  - reflexivity.
  - cbn. lia.
Defined.


(** ** Exceptions that leave [recover_file] *)

(** [recover_file] when the scan, after complete non-payload boxes, ends
    at the bytes [tail] with a result other than found_mdat True. *)
Lemma recover_file_after_boxes ffmpeg fuel w boxes tail r :
  Forall skippable boxes ->
  input_file w = encode_boxes boxes ++ tail ->
  (length boxes < fuel)%nat ->
  (forall k w1, 0 <= cursor w1 -> remaining w1 = tail ->
     exists moved w2, scan_atoms no_faults (S k) w1 = (r, w2) /\
                      advanced moved [] w1 w2) ->
  r <> OutOfFuel -> r <> Ok true ->
  let o := recover_file no_faults ffmpeg fuel w in
  returned o = fst (verdict ffmpeg r w) /\ mux_input o = None /\
  temp_file (final o) = None.
Proof.
  intros Hb Hin Hfuel Hscan Hr Hnt. cbv zeta. unfold recover_file.
  rewrite prelude_no_faults.
  destruct (with_files_scan fuel (started w) eq_refl)
    as (w0 & -> & Hs0 & _ & Hc0 & _ & _ & _ & Ht0).
  assert (Hrem0 : remaining w0 = encode_boxes boxes ++ tail).
  { unfold remaining. rewrite Hs0, Hc0. cbn [src started].
    rewrite <- Hin. now destruct (input_file w). }
  replace fuel with (length boxes + S (fuel - S (length boxes)))%nat by lia.
  destruct (scan_atoms_boxes boxes (S (fuel - S (length boxes))) _ w0
              Hb ltac:(lia) Hrem0) as (w1 & E1 & H1).
  destruct (advanced_remaining _ _ _ _ _ _ H1 eq_refl ltac:(lia) Hrem0)
    as [Hc1 Hrem1].
  destruct (Hscan (fuel - S (length boxes))%nat w1 Hc1 Hrem1)
    as (moved & w2 & E2 & H2).
  pose proof (advanced_trans _ _ _ _ _ _ _ H1 H2) as (_ & _ & _ & _ & _ & _ & Ht2).
  destruct (with_exit_no_faults
              (fun _ => scan_atoms no_faults
                          (length boxes + S (fuel - S (length boxes))) w0)
              (started w) r w2) as (w3 & -> & _ & _);
    [now rewrite E1, E2 | exact Hr | auto |].
  destruct r as [[|] | [| |] |]; try contradiction;
    cbn [negb verdict fst]; rewrite ?remove_no_faults, finally_no_faults;
    cbn [snd returned mux_input final]; repeat split; apply removed_fields.
Qed.

(** X4.  When the file ends inside the 8-byte extended size of a box whose
    size field is 1, be it the payload box or any other, [struct.unpack]
    raises [struct.error] and nothing catches it: [recover_file] raises
    instead of returning, the mux step is not run, and the [finally]
    clause has removed the temporary file. *)
Theorem X4_cut_extended_size_raises ffmpeg fuel w boxes tag tail :
  Forall skippable boxes -> length tag = 4%nat -> (length tail < 8)%nat ->
  input_file w = encode_boxes boxes ++ pack_I 1 ++ tag ++ tail ->
  (length boxes < fuel)%nat ->
  let o := recover_file no_faults ffmpeg fuel w in
  returned o = Raise StructError /\ mux_input o = None /\
  temp_file (final o) = None.
Proof.
  intros Hb Ht Hs Hin Hfuel.
  apply (recover_file_after_boxes ffmpeg fuel w boxes _ (Raise StructError)
           Hb Hin Hfuel); [| discriminate | discriminate].
  intros k w0 Hc1 Hrem1.
  rewrite scan_atoms_S. unfold bind at 1. rewrite read_no_faults.
  destruct (read_header (pack_I 1) tag tail w0 (pack_I_length 1) Ht Hrem1)
    as [-> Hl8].
  rewrite Hl8. change (8 <? 8) with false. cbv iota beta.
  rewrite unpack_I4s_app by apply pack_I_length.
  rewrite unpack_pack_I by lia. cbv zeta. change (1 =? 1) with true.
  assert (Hlarge : forall w1,
            cursor w1 = cursor w0 + 8 -> src w1 = src w0 ->
            take 8 (remaining w1) = tail).
  { intros w1 Hc Hsrc. unfold remaining. rewrite Hc, Hsrc.
    change (cursor w0 + 8) with (cursor w0 + Z.of_nat 8).
    rewrite drop_add by assumption. fold (remaining w0). rewrite Hrem1.
    rewrite app_assoc, skipn_app_exact
      by (rewrite length_app, pack_I_length, Ht; reflexivity).
    apply take_short. lia. }
  assert (Hbad : struct_unpack_uint 8 tail = Raise StructError).
  { unfold struct_unpack_uint.
    destruct (Nat.eqb (length tail) 8) eqn:E; [|reflexivity].
    apply Nat.eqb_eq in E. lia. }
  destruct (String.eqb (decode_ascii_ignore tag) "mdat").
  - unfold bind at 1. rewrite tell_no_faults.
    unfold bind at 1. unfold bind at 1. rewrite read_no_faults.
    rewrite Hlarge by reflexivity.
    unfold lift. rewrite Hbad. do 2 eexists. split; [reflexivity|].
    advanced_fields. repeat split; auto.
    rewrite <- Z.add_assoc. reflexivity.
  - unfold bind at 1. rewrite read_no_faults, Hlarge by reflexivity.
    unfold bind at 1, lift. rewrite Hbad. do 2 eexists. split; [reflexivity|].
    advanced_fields. repeat split; auto.
    rewrite <- Z.add_assoc. reflexivity.
Qed.

Lemma X4_witness :
  let o := recover_file no_faults ffmpeg_ok 2
             (disk (encode_boxes [free_box] ++ pack_I 1 ++ mdat_tag ++ [x00; x00])) in
  returned o = Raise StructError /\ mux_input o = None /\
  temp_file (final o) = None.
Proof.
  apply (X4_cut_extended_size_raises ffmpeg_ok 2
           (disk (encode_boxes [free_box] ++ pack_I 1 ++ mdat_tag ++ [x00; x00]))
           [free_box] mdat_tag [x00; x00]).
  - exact sample_boxes_skippable.
  - reflexivity.
  - cbn. lia.
  - reflexivity.
  - cbn. lia.
Defined.

(** X12.  A non-payload box in extended form whose 64-bit size exceeds
    2^63 + 15 makes [f_in.seek] refuse its offset, which is no file
    offset: [ValueError] is raised and nothing catches it.
    [recover_file] raises instead of returning, the mux step is not run,
    and the [finally] clause has removed the temporary file. *)
Theorem X12_oversized_extended_size_raises
        ffmpeg fuel w boxes tag large_size tail :
  Forall skippable boxes -> length tag = 4%nat -> tag <> mdat_tag ->
  length large_size = 8%nat -> 2 ^ 63 + 16 <= be_uint large_size ->
  input_file w = encode_boxes boxes ++ pack_I 1 ++ tag ++ large_size ++ tail ->
  (length boxes < fuel)%nat ->
  let o := recover_file no_faults ffmpeg fuel w in
  returned o = Raise ValueError /\ mux_input o = None /\
  temp_file (final o) = None.
Proof.
  intros Hb Ht Hne Hl Hbig Hin Hfuel.
  apply (recover_file_after_boxes ffmpeg fuel w boxes _ (Raise ValueError)
           Hb Hin Hfuel); [| discriminate | discriminate].
  intros k w0 Hc1 Hrem1.
  rewrite (scan_atoms_skip_large k w0 (pack_I 1) tag large_size tail
             Hc1 (pack_I_length 1) Ht Hne Hl (unpack_pack_I 1 ltac:(lia)) Hrem1).
  unfold bind at 1, f_in_seek_cur.
  replace (max_offset <? be_uint large_size - 16) with true
    by (symmetry; apply Z.ltb_lt; unfold max_offset; lia).
  rewrite orb_true_r. unfold lift.
  do 2 eexists. split; [reflexivity|].
  advanced_fields. repeat split; auto.
Qed.

Lemma X12_witness :
  let o := recover_file no_faults ffmpeg_ok 1 (disk huge_large_size_input) in
  returned o = Raise ValueError /\ mux_input o = None /\
  temp_file (final o) = None.
Proof.
  apply (X12_oversized_extended_size_raises ffmpeg_ok 1
           (disk huge_large_size_input) [] free_tag (pack_Q (2 ^ 64 - 1)) []).
  - constructor.
  - reflexivity.
  - discriminate.
  - reflexivity.
  - vm_compute. discriminate.
  - reflexivity.
  - cbn. lia.
Defined.

(** ** A box that runs to the end of the file *)

(** X5.  A non-payload box whose size field is 0 ends the scan where it
    stands: whatever follows it, even a payload box full of valid records,
    is never looked at; [recover_file] returns False without running the
    mux step and the temporary file is removed. *)
Theorem X5_size_zero_box_hides_the_rest ffmpeg fuel w boxes size_bytes tag tail :
  Forall skippable boxes ->
  length size_bytes = 4%nat -> be_uint size_bytes = 0 ->
  length tag = 4%nat -> tag <> mdat_tag ->
  input_file w = encode_boxes boxes ++ size_bytes ++ tag ++ tail ->
  (length boxes < fuel)%nat ->
  let o := recover_file no_faults ffmpeg fuel w in
  returned o = Ok false /\ mux_input o = None /\
  temp_file (final o) = None.
Proof.
  intros Hb Hs Hz Ht Hne Hin Hfuel.
  assert (Hend : scan_end (size_bytes ++ tag ++ tail))
    by (now apply (RestOfFile _ size_bytes tag tail)).
  exact (recover_file_no_payload ffmpeg fuel w boxes _ Hb Hend Hin Hfuel).
Qed.

Lemma X5_witness :
  let o := recover_file no_faults ffmpeg_ok 2
             (disk (encode_boxes [free_box] ++ pack_I 0 ++ free_tag ++
                    mdat_only_input)) in
  returned o = Ok false /\ mux_input o = None /\
  temp_file (final o) = None.
Proof.
  apply (X5_size_zero_box_hides_the_rest ffmpeg_ok 2
           (disk (encode_boxes [free_box] ++ pack_I 0 ++ free_tag ++
                  mdat_only_input))
           [free_box] (pack_I 0) free_tag mdat_only_input).
  - exact sample_boxes_skippable.
  - reflexivity.
  - reflexivity.
  - reflexivity.
  - discriminate.
  - reflexivity.
  - cbn. lia.
Defined.


(** ** How a run ends *)

Lemma take_drop_length {A} (l : list A) n p :
  (length (take n (drop p l)) <= length l)%nat.
Proof.
  rewrite take_firstn, drop_skipn, length_firstn, length_skipn. lia.
Qed.

Lemma short_input_no_zero_large_size input :
  (length input < 16)%nat -> forall p, 0 <= p -> ~ zero_large_size_at input p.
Proof.
  intros Hs p _ (Hl & _). pose proof (take_drop_length input 16 p). lia.
Qed.

(** X6.  On an input that holds no non-payload header with size field 1
    and extended size 0, [recover_file] ends within a number of scanning
    iterations fixed by the length of the input, whichever operations
    fail.  Unless [mkstemp], [os.close] or [os.remove] itself failed, it
    returns a boolean or lets [struct.error] or [ValueError] out, never an
    [OSError], and the temporary file is gone when it ends. *)
Theorem X6_run_ends_and_cleans_up fault ffmpeg w :
  (forall p, 0 <= p -> ~ zero_large_size_at (input_file w) p) ->
  let o := recover_file fault ffmpeg (length (input_file w) + 2) w in
  returned o <> OutOfFuel /\
  (Forall (fun s => is_sys_call s = false) (failures (final o)) ->
   ((exists b, returned o = Ok b) \/ returned o = Raise StructError \/
    returned o = Raise ValueError) /\
   temp_file (final o) = None).
Proof.
  intros Hz. cbv zeta. split; [now apply recover_file_terminates|].
  intros Hsys.
  destruct (recover_file_cases fault ffmpeg (length (input_file w) + 2) w)
    as (_ & _ & [(_ & _ & _ & s & Hs & Hf)
                | (r & w1 & E & _ & _ & [(_ & Hr & Ht) | (s & more & Hf & Hs & _)])]).
  - exfalso. rewrite Hf in Hsys. inversion Hsys; congruence.
  - apply (with_files_terminates fault (started w)) in E; [| exact Hz].
    rewrite Hr. split; [| now apply Ht].
    destruct r as [[|] | [| |] |]; cbn [verdict fst]; eauto. contradiction.
  - exfalso. rewrite Hf in Hsys. apply Forall_app in Hsys.
    destruct Hsys as [_ Hsys]. inversion Hsys; congruence.
Qed.

Lemma X6_witness :
  let o := recover_file (fail_at 11) ffmpeg_ok
             (length (input_file (disk tiny_input)) + 2) (disk tiny_input) in
  returned o <> OutOfFuel /\
  (Forall (fun s => is_sys_call s = false) (failures (final o)) ->
   ((exists b, returned o = Ok b) \/ returned o = Raise StructError \/
    returned o = Raise ValueError) /\
   temp_file (final o) = None).
Proof.
  apply (X6_run_ends_and_cleans_up (fail_at 11) ffmpeg_ok (disk tiny_input)).
  apply short_input_no_zero_large_size. cbn. lia.
Defined.

(** X13.  The temporary file is created before the [try] statement: when
    [mkstemp] fails, or [os.close] on the descriptor it returned,
    [OSError] leaves [recover_file], neither file is opened and the mux
    step is not run; in the second case the [finally] clause is never
    entered and the empty temporary file stays on disk. *)
Theorem X13_failure_before_try fault ffmpeg fuel w :
  let o := recover_file fault ffmpeg fuel w in
  (fault 0%nat = true ->
   returned o = Raise OSError /\ mux_input o = None /\
   failures (final o) = [MkStemp] /\ temp_file (final o) = None /\
   clock (final o) = 0%nat) /\
  (fault 0%nat = false -> fault 1%nat = true ->
   returned o = Raise OSError /\ mux_input o = None /\
   failures (final o) = [CloseFd] /\ temp_file (final o) = Some [] /\
   clock (final o) = 0%nat).
Proof.
  cbv zeta. unfold recover_file, bind, mkstemp, os_close, sys.
  cbn [ops begin_run sys_calls clock Nat.add].
  split.
  - intros ->. cbn. auto.
  - intros -> H1. cbn [tick_sys set_temp ops sys_calls clock Nat.add].
    change (S (sys_calls (begin_run w) + clock (begin_run w))) with 1%nat.
    rewrite H1. cbn. auto.
Qed.

Lemma X13_witness :
  let o := recover_file (fail_at 1) ffmpeg_ok 2 (disk scenario_input) in
  returned o = Raise OSError /\ mux_input o = None /\
  failures (final o) = [CloseFd] /\ temp_file (final o) = Some [] /\
  clock (final o) = 0%nat.
Proof.
  apply (proj2 (X13_failure_before_try (fail_at 1) ffmpeg_ok 2
                  (disk scenario_input))); reflexivity.
Defined.


(* ------------------------------------------------------------------ *)
(** ** What the mux step is given *)

Lemma mux_status_true r : mux_status r = true -> r = Exited 0.
Proof.
  destruct r as [rc|]; cbn; [| discriminate].
  intros H. apply Z.eqb_eq in H. now subst.
Qed.

(** X7.  Whichever I/O operations fail and whatever the input,
    [recover_file] returns True only when ffmpeg was run and exited with
    code 0, on a file that starts with the start code and the SPS, then
    the start code and the PPS; and the temporary file is removed. *)
Theorem X7_true_means_muxed_with_parameter_sets fault ffmpeg fuel w :
  returned (recover_file fault ffmpeg fuel w) = Ok true ->
  let o := recover_file fault ffmpeg fuel w in
  exists x,
    mux_input o = Some (Some (START_CODE ++ SPS ++ START_CODE ++ PPS ++ x)) /\
    ffmpeg (Some (START_CODE ++ SPS ++ START_CODE ++ PPS ++ x)) = Exited 0 /\
    temp_file (final o) = None.
Proof.
  cbv zeta. intros Htrue.
  destruct (recover_file_cases fault ffmpeg fuel w)
    as (_ & _ & [(Hr & _) | (r & w1 & E & Hm & _ & [(_ & Hr & Ht) | (s & more & _ & _ & Hr)])]);
    [congruence | | destruct Hr; congruence].
  rewrite Hr in Htrue.
  assert (Hfile : exists x, temp_file w1 = Some (parameter_sets ++ x)).
  { apply with_files_outcome in E; [| reflexivity | reflexivity].
    destruct r as [[|] | [| |] |]; try discriminate Htrue.
    destruct E as [(_ & Hf) | [(_ & Hraise) | (s & _ & _ & _ & _ & Hf)]].
    - rewrite (Hf true eq_refl). exists (annexb (nal_units w1)).
      unfold parameter_sets. cbn [annexb flat_map]. now rewrite <- !app_assoc.
    - discriminate Hraise.
    - rewrite Hf. unfold stream_at_failure.
      exists (annexb (nal_units w1) ++ if is_nal_data s then START_CODE else []).
      unfold parameter_sets. cbn [annexb flat_map]. now rewrite <- !app_assoc. }
  destruct Hfile as (x & Hx).
  destruct r as [[|] | [| |] |]; try discriminate Htrue.
  cbn [verdict fst snd] in *. rewrite Hm, Hx in *.
  unfold parameter_sets in *. rewrite <- !app_assoc in *.
  exists x. split; [reflexivity|]. split.
  - apply mux_status_true. now inversion Htrue.
  - apply Ht. discriminate.
Qed.

Lemma X7_witness :
  let o := recover_file (fail_at 10) ffmpeg_ok 1 (disk tiny_input) in
  exists x,
    mux_input o = Some (Some (START_CODE ++ SPS ++ START_CODE ++ PPS ++ x)) /\
    ffmpeg_ok (Some (START_CODE ++ SPS ++ START_CODE ++ PPS ++ x)) = Exited 0 /\
    temp_file (final o) = None.
Proof.
  apply (X7_true_means_muxed_with_parameter_sets (fail_at 10) ffmpeg_ok 1
           (disk tiny_input)).
  vm_compute. reflexivity.
Defined.

(** ** The size of the intermediate stream *)

Lemma read_within n w :
  0 <= cursor w ->
  Z.of_nat (length (take n (remaining w))) = 0 \/
  cursor w + Z.of_nat (length (take n (remaining w)))
    <= Z.of_nat (length (input_file w)).
Proof.
  intros Hc. unfold remaining.
  rewrite take_firstn, drop_skipn, length_firstn, length_skipn. lia.
Qed.

(** All the facts [read_within] gives about the reads of a run. *)
Ltac read_facts :=
  repeat match goal with
  | |- context [take ?n (remaining ?x)] =>
      lazymatch goal with
      | _ : 0 <= cursor x -> Z.of_nat (length (take n (remaining x))) = 0 \/ _ |- _ => fail
      | _ => pose proof (read_within n x)
      end
  end;
  repeat match goal with
  | H : (_ <? _) = false |- _ => apply Z.ltb_ge in H
  end.

Ltac budget_leaf :=
  unfold within_budget in *; read_facts; world_fields;
  repeat match goal with
  | Hw : bytes_of _ ++ _ = _ |- _ => apply (f_equal (@length byte)) in Hw
  end;
  rewrite ?length_app in *; change (length START_CODE) with 4%nat in *;
  cbn [length] in *; lia.

Lemma extract_nals_budget fault fuel : forall w r w',
  extract_nals fault fuel w = (r, w') -> within_budget w -> within_budget w'.
Proof.
  induction fuel as [|fuel IH]; intros w r w' H Hb.
  - inversion H; subst; assumption.
  - rewrite extract_nals_S in H. repeat run_step H;
      try solve [budget_leaf].
    eapply IH; [eassumption|]. budget_leaf.
Qed.

Lemma scan_atoms_budget fault fuel : forall w r w',
  scan_atoms fault fuel w = (r, w') ->
  0 <= cursor w -> Z.of_nat (length (written w)) <= 44 ->
  Z.of_nat (length (written w')) <= 44 + Z.of_nat (length (input_file w)).
Proof.
  induction fuel as [|fuel IH]; intros w r w' H Hc Ht.
  - inversion H; subst. lia.
  - rewrite scan_atoms_S in H. repeat scan_step H;
      try solve [world_fields; lia];
      try solve [apply IH in H;
                 [ exact H
                 | cbn [cursor set_cursor tick] in *; lia
                 | exact Ht ]];
      match goal with
      | Hl : extraction_loop _ ?w1 = (_, ?w2) |- _ =>
          unfold extraction_loop in Hl;
          pose proof (extract_nals_input _ _ _ _ _ Hl) as [Hin _];
          apply extract_nals_budget in Hl;
          [ destruct Hl as [Hcur Htmp]; rewrite Hin in Hcur;
            cbn [src set_cursor tick] in Hcur; lia
          | budget_leaf ]
      end.
Qed.

Lemma with_files_budget fault fuel w r w' :
  with_files fault fuel w = (r, w') -> written w = [] ->
  Z.of_nat (length (written w')) <= 44 + Z.of_nat (length (input_file w)).
Proof.
  intros H Hw0. unfold with_files in H.
  run_step H. run_step H; [inversion H; subst; world_fields; rewrite ?Hw0; cbn [length app]; lia |].
  run_step H. run_step H; [inversion H; subst; world_fields; rewrite ?Hw0; cbn [length app]; lia |].
  apply with_exit_inv in H. destruct H as (rb & wb & Eb & Hexit).
  assert (Hb : Z.of_nat (length (written wb)) <= 44 + Z.of_nat (length (input_file w))).
  { clear Hexit Hw0. repeat run_step Eb.
    all: try (apply scan_atoms_budget in Eb;
              [exact Eb | cbn [cursor set_buffer set_temp tick set_cursor]; lia |]).
    all: world_fields;
      repeat match goal with
      | Hw : bytes_of _ ++ _ = _ |- _ => apply (f_equal (@length byte)) in Hw
      end;
      rewrite ?length_app in *;
      change (length START_CODE) with 4%nat in *;
      change (length SPS) with 30%nat in *;
      change (length PPS) with 6%nat in *;
      cbn [length] in *; lia. }
  destruct Hexit as [(_ & _ & ->) | (_ & [(_ & _ & ->) | [(_ & ->) | (_ & _ & ->)]])];
    try exact Hb.
  world_fields. now rewrite app_nil_r.
Qed.

(** X8.  Whichever I/O operations fail and whatever the input, the file
    handed to ffmpeg is at most 44 bytes longer than the input file: the
    two parameter units, and for each unit written a start code in place
    of the length field read. *)
Theorem X8_stream_size_bound fault ffmpeg fuel w t :
  mux_input (recover_file fault ffmpeg fuel w) = Some (Some t) ->
  Z.of_nat (length t) <= 44 + Z.of_nat (length (input_file w)).
Proof.
  destruct (recover_file_cases fault ffmpeg fuel w)
    as (_ & _ & [(_ & Hm & _) | (r & w1 & E & Hm & _)]); rewrite Hm;
    [discriminate|].
  apply with_files_budget in E; [| reflexivity].
  cbn [src started] in E.
  destruct r as [[|] | [| |] |]; cbn [verdict snd]; try discriminate.
  intros H. inversion H as [Ht]. unfold written, temp_bytes in E.
  rewrite Ht, length_app in E. cbn [bytes_of] in E. lia.
Qed.

Lemma X8_witness :
  Z.of_nat (length (annexb [SPS; PPS; nal5; nal7]))
    <= 44 + Z.of_nat (length (input_file (disk scenario_input))).
Proof.
  apply (X8_stream_size_bound no_faults ffmpeg_ok 2 (disk scenario_input)
           (annexb [SPS; PPS; nal5; nal7])).
  reflexivity.
Defined.

(** ** [main] *)

(** X9.  Without any element in [sys.argv] the usage message cannot be
    formatted and [main] lets [IndexError] out; with the program name
    alone it exits with status 1.  Given an output path it passes both
    paths on unchanged and ignores any further argument.  Given only the
    input path, the output path it derives ends in "_fixed.mp4" and is
    never the input path itself, so the default never makes ffmpeg
    overwrite the file being recovered. *)
Theorem X9_main_dispatch prog in_file out_file more :
  main [] = RaiseIndexError /\
  main [prog] = SysExit 1 /\
  main (prog :: in_file :: out_file :: more) = CallRecoverFile in_file out_file /\
  exists base,
    main [prog; in_file] = CallRecoverFile in_file (base ++ str "_fixed.mp4") /\
    base ++ str "_fixed.mp4" <> in_file.
Proof.
  repeat split.
  pose proof (splitext_shape in_file) as Hshape.
  destruct (splitext in_file) as [base ext] eqn:Esplit.
  destruct Hshape as [Hcat Hext].
  exists base. split.
  - unfold main. cbn [length Nat.ltb Nat.leb nth]. now rewrite Esplit.
  - intros Heq. rewrite Hcat in Heq. apply app_inv_head in Heq.
    destruct Hext as [-> | (e & -> & _)]; discriminate Heq.
Qed.

Lemma all_dots_skipped p d : forall n f,
  (forall j, f <= j < d -> not_dot_at p j = false) ->
  skip_leading_dots n p f d = None.
Proof.
  induction n as [|n IH]; intros f Hdots; cbn [skip_leading_dots];
    [reflexivity|].
  destruct (f <? d) eqn:E; [|reflexivity].
  apply Z.ltb_lt in E. rewrite (Hdots f) by lia.
  apply IH. intros j Hj. apply Hdots. lia.
Qed.

Lemma not_dot_at_dot a dots b j :
  Forall (eq "."%char) dots ->
  Z.of_nat (length a) <= j < Z.of_nat (length a) + Z.of_nat (length dots) ->
  not_dot_at (a ++ dots ++ b) j = false.
Proof.
  intros Hd Hj. unfold not_dot_at.
  replace j with (Z.of_nat (Z.to_nat (j - Z.of_nat (length a)) + length a)) by lia.
  rewrite drop_skipn, Nat2Z.id, <- skipn_skipn, skipn_app_exact by reflexivity.
  set (k := Z.to_nat (j - Z.of_nat (length a))).
  assert (Hk : (k < length dots)%nat) by lia.
  clearbody k. clear Hj. revert k Hk.
  induction Hd as [|c dots Hc _ IH]; intros k Hk; [cbn in Hk; lia|].
  destruct k as [|k].
  - subst c. cbn [app skipn]. rewrite take_firstn.
    change (Z.to_nat 1) with 1%nat. cbn [firstn]. reflexivity.
  - cbn [app skipn]. apply IH. cbn [length] in Hk. lia.
Qed.

(** A path whose last component has no dot apart from leading ones has no
    extension for [splitext]. *)
Lemma splitext_no_extension dir dots name :
  (dir = [] \/ exists d, dir = d ++ ["/"%char]) ->
  Forall (eq "."%char) dots ->
  ~ In "."%char name -> ~ In "/"%char name ->
  splitext (dir ++ dots ++ name) = (dir ++ dots ++ name, []).
Proof.
  intros Hdir Hdots Hn Hs.
  set (p := dir ++ dots ++ name).
  assert (Hnd : ~ In "/"%char (dots ++ name)).
  { intros H. apply in_app_or in H. destruct H as [H | H]; [| contradiction].
    rewrite Forall_forall in Hdots. apply Hdots in H. discriminate. }
  assert (Hsep : rfind "/" p = Z.of_nat (length dir) - 1).
  { unfold rfind, p. rewrite rfind_from_prefix by assumption.
    destruct Hdir as [-> | (d & ->)].
    - reflexivity.
    - rewrite rfind_from_last by (cbn; tauto || lia).
      rewrite length_app. cbn [length]. lia. }
  unfold splitext. fold p.
  destruct (rfind "." p >? rfind "/" p) eqn:Egt; [| reflexivity].
  rewrite all_dots_skipped; [reflexivity|].
  intros j Hj. rewrite Hsep in Hj.
  assert (Hdot : rfind "." p < Z.of_nat (length dir) + Z.of_nat (length dots)).
  { destruct dots as [|c dots'] using rev_ind.
    - (* no leading dot: the last dot, if any, lies in [dir] *)
      unfold rfind, p. cbn [app]. rewrite rfind_from_prefix by assumption.
      destruct (rfind_from_bound "." dir 0 ltac:(lia)) as [H | ->];
        [lia | cbn; lia].
    - apply Forall_app in Hdots. destruct Hdots as [_ Hc].
      inversion Hc as [|? ? Hc' _]; subst c.
      unfold rfind, p. rewrite <- app_assoc. cbn [app].
      rewrite (app_assoc dir dots'), rfind_from_last by (lia || assumption).
      rewrite !length_app. cbn [length]. lia. }
  unfold p. apply not_dot_at_dot; [assumption | lia].
Qed.

(** X10.  When the last component of the input path has no dot apart from
    leading ones (a name without extension, a hidden file, a dot only in a
    directory name), nothing is removed: the default output path is the
    whole input path followed by "_fixed.mp4". *)
Theorem X10_no_extension_keeps_the_name prog dir dots name :
  (dir = [] \/ exists d, dir = d ++ ["/"%char]) ->
  Forall (eq "."%char) dots ->
  ~ In "."%char name -> ~ In "/"%char name ->
  main [prog; dir ++ dots ++ name] =
  CallRecoverFile (dir ++ dots ++ name)
                  ((dir ++ dots ++ name) ++ str "_fixed.mp4").
Proof.
  intros Hdir Hdots Hn Hs. unfold main. cbn [length Nat.ltb Nat.leb nth].
  now rewrite splitext_no_extension.
Qed.

Lemma X10_witness :
  main [str "fix_timelapse.py"; str "my.videos/" ++ str "." ++ str "clip"] =
  CallRecoverFile (str "my.videos/" ++ str "." ++ str "clip")
                  ((str "my.videos/" ++ str "." ++ str "clip")
                   ++ str "_fixed.mp4").
Proof.
  apply (X10_no_extension_keeps_the_name (str "fix_timelapse.py")
           (str "my.videos/") (str ".") (str "clip")).
  - right. exists (str "my.videos"). reflexivity.
  - repeat constructor.
  - cbn. intuition discriminate.
  - cbn. intuition discriminate.
Defined.
